(** * Tango solver (TanGOAT): shallow embedding of the DFS solver of DIY.md

    The board is [this.board], an array of rows of cells; a cell is the
    [contains] field only (the code keeps no [locked] flag: a pre-filled cell
    is simply a non-EMPTY one).  The edge matrices are [this.edges.horizontal]
    and [this.edges.vertical].  [BOARD_SIZE] is the global [N] and
    [EDGE_SIZE = N - 1].  The search mutates [this.board] and the local array
    [solution] in place; both are threaded explicitly through [dfs] as a
    state record. *)

From Stdlib Require Import List Arith Lia Bool Sorting Permutation.
From Stdlib Require String.
Import ListNotations.
Import (notations) String.

Module CellState.
Inductive t := EMPTY | SUN | MOON.
Definition eqb (x y : t) : bool :=
  match x, y with
  | EMPTY, EMPTY | SUN, SUN | MOON, MOON => true
  | _, _ => false
  end.
End CellState.

Module EdgeState.
Inductive t := EMPTY | EQUAL | OPPOSITE.
Definition eqb (x y : t) : bool :=
  match x, y with
  | EMPTY, EMPTY | EQUAL, EQUAL | OPPOSITE, OPPOSITE => true
  | _, _ => false
  end.
End EdgeState.

Abbreviation cell := CellState.t.
Abbreviation Board := (list (list CellState.t)).

Record Edges := mkEdges {
  horizontal : list (list EdgeState.t);
  vertical : list (list EdgeState.t)
}.

(** Array update [a[i] = x]: only ever used in range by the solver. *)
Fixpoint update_nth {A} (i : nat) (x : A) (l : list A) : list A :=
  match l, i with
  | [], _ => []
  | _ :: l', 0 => x :: l'
  | y :: l', S i' => y :: update_nth i' x l'
  end.

(** [this.board[row][col].contains] *)
Definition get (b : Board) (row col : nat) : cell :=
  nth col (nth row b []) CellState.EMPTY.

(** [this.board[row][col].contains = symbol] *)
Definition set (b : Board) (row col : nat) (symbol : cell) : Board :=
  update_nth row (update_nth col symbol (nth row b [])) b.

(** [this.edges.horizontal[row][col].state] and the vertical analogue;
    the solver only reads them in range. *)
Definition hedge (e : Edges) (row col : nat) : EdgeState.t :=
  nth col (nth row (horizontal e) []) EdgeState.EMPTY.
Definition vedge (e : Edges) (row col : nat) : EdgeState.t :=
  nth col (nth row (vertical e) []) EdgeState.EMPTY.

Section Solver.

(** [BOARD_SIZE]; [EDGE_SIZE] is [BOARD_SIZE - 1], so [x < EDGE_SIZE] is
    written [x + 1 < BOARD_SIZE] (JavaScript numbers do not truncate). *)
Variable BOARD_SIZE : nat.
Variable edges : Edges.

Definition neq (x y : cell) : bool := negb (CellState.eqb x y).

(** checkThreeInRowHorizontal (DIY.md, "Three-in-a-Row Detection"). *)
Definition checkThreeInRowHorizontal (b : Board) (row col : nat) (symbol : cell) : bool :=
  (* Pattern: XX_ *)
  (if 2 <=? col then
     CellState.eqb (get b row (col - 1)) symbol && CellState.eqb (get b row (col - 2)) symbol
   else false)
  (* Pattern: _XX ; [col <= BOARD_SIZE - 3] *)
  || (if col + 3 <=? BOARD_SIZE then
        CellState.eqb (get b row (col + 1)) symbol && CellState.eqb (get b row (col + 2)) symbol
      else false)
  (* Pattern: X_X *)
  || (if (0 <? col) && (col + 1 <? BOARD_SIZE) then
        CellState.eqb (get b row (col - 1)) symbol && CellState.eqb (get b row (col + 1)) symbol
      else false).

(** Modelled from the spec: checkThreeInRowVertical, called by
    isValidPlacement but whose body is not in the source; the spec (4.2)
    gives the same three sliding windows column-wise. *)
Definition checkThreeInRowVertical (b : Board) (row col : nat) (symbol : cell) : bool :=
  (if 2 <=? row then
     CellState.eqb (get b (row - 1) col) symbol && CellState.eqb (get b (row - 2) col) symbol
   else false)
  || (if row + 3 <=? BOARD_SIZE then
        CellState.eqb (get b (row + 1) col) symbol && CellState.eqb (get b (row + 2) col) symbol
      else false)
  || (if (0 <? row) && (row + 1 <? BOARD_SIZE) then
        CellState.eqb (get b (row - 1) col) symbol && CellState.eqb (get b (row + 1) col) symbol
      else false).

(** Number of indices [j < n] satisfying [f]. *)
Fixpoint count_upto (n : nat) (f : nat -> bool) : nat :=
  match n with
  | 0 => 0
  | S n' => count_upto n' f + (if f n' then 1 else 0)
  end.

Definition count_row (b : Board) (row : nat) (symbol : cell) : nat :=
  count_upto BOARD_SIZE (fun c => CellState.eqb (get b row c) symbol).
Definition count_col (b : Board) (col : nat) (symbol : cell) : nat :=
  count_upto BOARD_SIZE (fun r => CellState.eqb (get b r col) symbol).

(** Modelled from the spec: checkRowColumnBalance, called by
    isValidPlacement but whose body is not in the source.  Spec 4.2: reject
    if the row or column would exceed N/2 occurrences of [symbol] once placed
    (counted over the currently filled cells); [N/2] is a JavaScript number,
    so [count + 1 > N/2] is [N < 2 * (count + 1)]. *)
Definition checkRowColumnBalance (b : Board) (row col : nat) (symbol : cell) : bool :=
  (BOARD_SIZE <? 2 * (count_row b row symbol + 1))
  || (BOARD_SIZE <? 2 * (count_col b col symbol + 1)).

(** One edge test of checkEdgeConstraints: [true] is a violation. *)
Definition edge_violated (edge : EdgeState.t) (other symbol : cell) : bool :=
  (EdgeState.eqb edge EdgeState.EQUAL && neq other CellState.EMPTY && neq other symbol)
  || (EdgeState.eqb edge EdgeState.OPPOSITE && neq other CellState.EMPTY
      && CellState.eqb other symbol).

(** Modelled from the spec: the vertical half of checkEdgeConstraints, elided
    in the source ("... vertical edge checking code").  Spec 4.2: every
    adjacent non-EMPTY cell linked by a non-NONE edge is checked, so both the
    cell below (edge [vertical[row][col]]) and the cell above (edge
    [vertical[row-1][col]]). *)
Definition checkEdgeConstraintsVertical (b : Board) (row col : nat) (symbol : cell) : bool :=
  (if row + 1 <? BOARD_SIZE then
     edge_violated (vedge edges row col) (get b (row + 1) col) symbol
   else false)
  || (if 0 <? row then
        edge_violated (vedge edges (row - 1) col) (get b (row - 1) col) symbol
      else false).

(** checkEdgeConstraints (DIY.md, "Edge Constraint Validation"): the
    horizontal part as written, the right-hand neighbour only. *)
Definition checkEdgeConstraints (b : Board) (row col : nat) (symbol : cell) : bool :=
  (if col + 1 <? BOARD_SIZE then
     let edge := hedge edges row col in
     let rightCell := get b row (col + 1) in
     edge_violated edge rightCell symbol
   else false)
  || checkEdgeConstraintsVertical b row col symbol.

(** isValidPlacement *)
Definition isValidPlacement (b : Board) (row col : nat) (symbol : cell) : bool :=
  if checkThreeInRowHorizontal b row col symbol then false
  else if checkThreeInRowVertical b row col symbol then false
  else if checkRowColumnBalance b row col symbol then false
  else if checkEdgeConstraints b row col symbol then false
  else true.

(** Modelled from the spec: getAdjacentEmptyCells, not in the source; spec
    4.3 step 2: the EMPTY 4-neighbours of the cell. *)
Definition getAdjacentEmptyCells (b : Board) (row col : nat) : list (nat * nat) :=
  let cand :=
    (if 0 <? row then [(row - 1, col)] else [])
    ++ (if row + 1 <? BOARD_SIZE then [(row + 1, col)] else [])
    ++ (if 0 <? col then [(row, col - 1)] else [])
    ++ (if col + 1 <? BOARD_SIZE then [(row, col + 1)] else []) in
  filter (fun '(r, c) => CellState.eqb (get b r c) CellState.EMPTY) cand.

(** The nested loops collecting [emptyCells], in row-major order. *)
Definition emptyCells (b : Board) : list (nat * nat) :=
  flat_map (fun row =>
    map (fun col => (row, col))
      (filter (fun col => CellState.eqb (get b row col) CellState.EMPTY)
         (seq 0 BOARD_SIZE)))
    (seq 0 BOARD_SIZE).

(** The sort key of [emptyCells.sort]. *)
Definition adjKey (b : Board) (p : nat * nat) : nat :=
  length (getAdjacentEmptyCells b (fst p) (snd p)).

(** [Array.prototype.sort] with comparator [aAdjacent - bAdjacent]; the
    sort is stable (ECMAScript 2019), modelled as a stable insertion sort. *)
Fixpoint insert_by (key : nat * nat -> nat) (x : nat * nat) (l : list (nat * nat)) :=
  match l with
  | [] => [x]
  | y :: l' => if key x <=? key y then x :: y :: l' else y :: insert_by key x l'
  end.

Fixpoint sort_by (key : nat * nat -> nat) (l : list (nat * nat)) :=
  match l with
  | [] => []
  | x :: l' => insert_by key x (sort_by key l')
  end.

Definition Placement := (nat * nat * cell)%type.

(** The mutable state of the search: [this.board], the [solution] array,
    and a ghost counter of [dfs] invocations. *)
Record St := mkSt { board : Board; solution : list Placement; calls : nat }.

Definition place (st : St) (row col : nat) (symbol : cell) : St :=
  mkSt (set (board st) row col symbol) (solution st ++ [(row, col, symbol)]) (calls st).

(** [solution.pop(); this.board[row][col].contains = CellState.EMPTY] *)
Definition unplace (st : St) (row col : nat) : St :=
  mkSt (set (board st) row col CellState.EMPTY) (removelast (solution st)) (calls st).

Definition tick (st : St) : St := mkSt (board st) (solution st) (S (calls st)).

(** One "Try Moon" / "Try Sun" block of [dfs]; [recur] is [dfs(index + 1)]. *)
Definition attempt (recur : St -> bool * St) (st : St) (row col : nat) (symbol : cell)
  : bool * St :=
  if isValidPlacement (board st) row col symbol then
    let '(r, st') := recur (place st row col symbol) in
    if r then (true, st')
    else (false, unplace st' row col) (* Backtrack *)
  else (false, st).

(** [dfs(index)]: [cells] is [emptyCells.slice(index)], so [index + 1] is
    the tail. *)
Fixpoint dfs (cells : list (nat * nat)) (st0 : St) : bool * St :=
  let st := tick st0 in
  match cells with
  | [] => (true, st) (* All cells filled *)
  | (row, col) :: rest =>
      let '(ok1, st1) := attempt (dfs rest) st row col CellState.MOON in
      if ok1 then (true, st1)
      else attempt (dfs rest) st1 row col CellState.SUN
  end.

Definition sortedEmptyCells (b : Board) : list (nat * nat) :=
  sort_by (adjKey b) (emptyCells b).

(** [solvePuzzle()]: the result and the final state of [this.board]. *)
Definition solvePuzzle_run (b : Board) : bool * St :=
  dfs (sortedEmptyCells b) (mkSt b [] 0).

Definition solvePuzzle (b : Board) : option (list Placement) :=
  let '(ok, st) := solvePuzzle_run b in
  if ok then Some (solution st) else None.

(** The board the placements of a solution produce from [b]. *)
Definition apply_placements (b : Board) (ps : list Placement) : Board :=
  fold_left (fun b' '(r, c, s) => set b' r c s) ps b.

(** Every placement of [ps] passed isValidPlacement on the board of its
    time. *)
Fixpoint valid_seq (b : Board) (ps : list Placement) : Prop :=
  match ps with
  | [] => True
  | (r, c, s) :: ps' => isValidPlacement b r c s = true /\ valid_seq (set b r c s) ps'
  end.

(** At every cell where [ps] places SUN, MOON was tried first and failed:
    it was not a valid placement, or the search below it failed. *)
Fixpoint moon_first (b : Board) (ps : list Placement) : Prop :=
  match ps with
  | [] => True
  | (r, c, s) :: ps' =>
      (s = CellState.SUN ->
         isValidPlacement b r c CellState.MOON = false
         \/ fst (dfs (map fst ps') (mkSt (set b r c CellState.MOON) [] 0)) = false)
      /\ moon_first (set b r c s) ps'
  end.

(** The cells still to be assigned are distinct and EMPTY. *)
Definition pending (cells : list (nat * nat)) (b : Board) : Prop :=
  NoDup cells /\ forall r c, In (r, c) cells -> get b r c = CellState.EMPTY.

(** The board has [BOARD_SIZE] rows of [BOARD_SIZE] cells. *)
Definition wf (b : Board) : Prop :=
  length b = BOARD_SIZE /\ forall r, r < BOARD_SIZE -> length (nth r b []) = BOARD_SIZE.

(** The rules of the puzzle, on a possibly partial board. *)
Definition no_three_row (b : Board) : Prop :=
  forall r c, r < BOARD_SIZE -> c + 2 < BOARD_SIZE -> get b r c <> CellState.EMPTY ->
    get b r c = get b r (c + 1) -> get b r (c + 1) = get b r (c + 2) -> False.

Definition no_three_col (b : Board) : Prop :=
  forall r c, c < BOARD_SIZE -> r + 2 < BOARD_SIZE -> get b r c <> CellState.EMPTY ->
    get b r c = get b (r + 1) c -> get b (r + 1) c = get b (r + 2) c -> False.

(** No row or column holds more than [BOARD_SIZE / 2] copies of a symbol. *)
Definition balance_le (b : Board) : Prop :=
  forall i s, i < BOARD_SIZE -> s <> CellState.EMPTY ->
    2 * count_row b i s <= BOARD_SIZE /\ 2 * count_col b i s <= BOARD_SIZE.

(** An edge between two cells is respected once both are filled. *)
Definition edge_ok (edge : EdgeState.t) (x y : cell) : Prop :=
  x = CellState.EMPTY \/ y = CellState.EMPTY \/
  ((edge = EdgeState.EQUAL -> x = y) /\ (edge = EdgeState.OPPOSITE -> x <> y)).

Definition vedges_ok (b : Board) : Prop :=
  forall r c, r + 1 < BOARD_SIZE -> c < BOARD_SIZE ->
    edge_ok (vedge edges r c) (get b r c) (get b (r + 1) c).

Definition hedges_ok (b : Board) : Prop :=
  forall r c, r < BOARD_SIZE -> c + 1 < BOARD_SIZE ->
    edge_ok (hedge edges r c) (get b r c) (get b r (c + 1)).

(** The pre-filled cells respect the rules among themselves. *)
Definition prefilled_ok (b : Board) : Prop :=
  balance_le b /\ no_three_row b /\ no_three_col b /\ vedges_ok b.

End Solver.

(** Row-major order on coordinates. *)
Definition lexlt (p q : nat * nat) : Prop :=
  fst p < fst q \/ (fst p = fst q /\ snd p < snd q).

(** The heuristic order of spec 4.3 step 2: ascending [key], ties broken in
    row-major order. *)
Definition heur_lt (key : nat * nat -> nat) (p q : nat * nat) : Prop :=
  key p < key q \/ (key p = key q /\ lexlt p q).

Definition coord_eq_dec (p q : nat * nat) : {p = q} + {p <> q}.
Proof. decide equality; apply Nat.eq_dec. Defined.

(** ** Concrete boards *)

Definition no_edges (n : nat) : Edges :=
  mkEdges (repeat (repeat EdgeState.EMPTY (n - 1)) n) (repeat (repeat EdgeState.EMPTY n) (n - 1)).

Definition empty_board (n : nat) : Board := repeat (repeat CellState.EMPTY n) n.

(** 4x4: [horizontal[0][0] = EQUAL], cell (0,0) pre-filled with SUN. *)
Definition edges_equal_00 : Edges :=
  mkEdges [[EdgeState.EQUAL; EdgeState.EMPTY; EdgeState.EMPTY];
           repeat EdgeState.EMPTY 3; repeat EdgeState.EMPTY 3; repeat EdgeState.EMPTY 3]
          (repeat (repeat EdgeState.EMPTY 4) 3).

Definition board_sun_00 : Board :=
  [CellState.SUN; CellState.EMPTY; CellState.EMPTY; CellState.EMPTY]
  :: repeat (repeat CellState.EMPTY 4) 3.

(** 6x6: row 0 pre-filled as [_ SUN SUN SUN _ _]. *)
Definition board_row_run : Board :=
  [CellState.EMPTY; CellState.SUN; CellState.SUN; CellState.SUN; CellState.EMPTY;
   CellState.EMPTY]
  :: repeat (repeat CellState.EMPTY 6) 5.

(** 6x6: column 0 pre-filled as [_ SUN SUN SUN _ _]. *)
Definition board_col_run : Board :=
  map (fun r => (if (1 <=? r) && (r <=? 3) then CellState.SUN else CellState.EMPTY)
                :: repeat CellState.EMPTY 5) (seq 0 6).

(** 4x4: row 0 pre-filled as [SUN SUN SUN _]. *)
Definition board_row_run4 : Board :=
  [CellState.SUN; CellState.SUN; CellState.SUN; CellState.EMPTY]
  :: repeat (repeat CellState.EMPTY 4) 3.

(** 3x3 (odd size), every cell pre-filled. *)
Definition board_full3 : Board := repeat (repeat CellState.SUN 3) 3.

(** 6x6: row 0 is S S E M M E, so (0,2) takes neither symbol. *)
Definition board_dead_cell : Board :=
  [CellState.SUN; CellState.SUN; CellState.EMPTY; CellState.MOON; CellState.MOON;
   CellState.EMPTY]
  :: repeat (repeat CellState.EMPTY 6) 5.

(** Every cell of the [n] by [n] board is non-EMPTY. *)
Definition no_empty_cell (n : nat) (b : Board) : bool :=
  forallb (fun r => forallb (fun c => neq (get b r c) CellState.EMPTY) (seq 0 n)) (seq 0 n).

(** ** Statement helpers for the search *)

(** [b'] keeps every filled cell of [b]: it is [b] with some EMPTY cells
    filled in (or the same board). *)
Definition extends (b b' : Board) : Prop :=
  forall r c, get b r c <> CellState.EMPTY -> get b' r c = get b r c.

(** MOON before SUN, the order in which [dfs] tries the symbols. *)
Definition sym_rank (s : cell) : nat :=
  match s with
  | CellState.MOON => 0
  | CellState.SUN => 1
  | CellState.EMPTY => 2
  end.

(** Lexicographic order on symbol sequences under [sym_rank]. *)
Fixpoint lex_le (xs ys : list cell) : Prop :=
  match xs, ys with
  | [], _ => True
  | _ :: _, [] => False
  | x :: xs', y :: ys' => sym_rank x < sym_rank y \/ (x = y /\ lex_le xs' ys')
  end.

(** ** The page side: board parsing and solution input (DIY.md, "Board
    State Parsing", "Constraint Detection", "Cell Interaction System")

    A [.lotka-cell] element is observed through the queries the code makes
    on it.  An edge element [.lotka-cell-edge--right] / [--down] is observed
    through its [svg] child: [None] when [querySelector('svg')] is null,
    [Some label] otherwise, [label] being its [aria-label] attribute
    ([None] when absent, [getAttribute] then returns null). *)
Record EdgeElem := mkEdgeElem { edge_svg : option (option String.string) }.

Record DomCell := mkDomCell {
  has_empty : bool;      (* .lotka-cell-content .lotka-cell-empty *)
  has_moon_id : bool;    (* #Moon *)
  has_moon_svg : bool;   (* svg[aria-label="Moon"] *)
  has_sun_id : bool;     (* #Sun *)
  has_sun_svg : bool;    (* svg[aria-label="Sun"] *)
  right_edge : option EdgeElem;  (* .lotka-cell-edge.lotka-cell-edge--right *)
  down_edge : option EdgeElem;   (* .lotka-cell-edge.lotka-cell-edge--down *)
  is_locked : bool       (* classList.contains('lotka-cell--locked') *)
}.

(** The [state] object parseBoardState fills in and returns: its [board]
    (the [contains] fields) and its [edges] (the [state] fields). *)
Record GameState := mkGameState { gs_board : Board; gs_edges : Edges }.

(** [m[i][j].field = x] on an array of arrays of objects: a TypeError
    ([None]) when [m[i]] or [m[i][j]] is undefined. *)
Definition set_checked {A} (m : list (list A)) (i j : nat) (x : A)
  : option (list (list A)) :=
  match nth_error m i with
  | Some row =>
      match nth_error row j with
      | Some _ => Some (update_nth i (update_nth j x row) m)
      | None => None
      end
  | None => None
  end.

Definition set_contents (st : GameState) (row col : nat) (v : cell) : option GameState :=
  match set_checked (gs_board st) row col v with
  | Some b => Some (mkGameState b (gs_edges st))
  | None => None
  end.

Definition set_hedge (st : GameState) (row col : nat) (v : EdgeState.t) : option GameState :=
  match set_checked (horizontal (gs_edges st)) row col v with
  | Some h => Some (mkGameState (gs_board st) (mkEdges h (vertical (gs_edges st))))
  | None => None
  end.

Definition set_vedge (st : GameState) (row col : nat) (v : EdgeState.t) : option GameState :=
  match set_checked (vertical (gs_edges st)) row col v with
  | Some w => Some (mkGameState (gs_board st) (mkEdges (horizontal (gs_edges st)) w))
  | None => None
  end.

(** [label === 'Cross' ? EdgeState.OPPOSITE : EdgeState.EQUAL] *)
Definition edge_of_label (label : option String.string) : EdgeState.t :=
  match label with
  | Some l => if String.eqb l "Cross"%string then EdgeState.OPPOSITE else EdgeState.EQUAL
  | None => EdgeState.EQUAL
  end.

(** One half of parseConstraintEdges: [if (edge && inRange) { svg = ...;
    if (svg) { ... .state = ... } }]; [write] is the assignment. *)
Definition parseEdge (el : option EdgeElem) (inRange : bool)
  (write : EdgeState.t -> option GameState) (st : GameState) : option GameState :=
  match el with
  | Some el =>
      if inRange then
        match edge_svg el with
        | Some label => write (edge_of_label label)
        | None => Some st
        end
      else Some st
  | None => Some st
  end.

(** parseConstraintEdges(cell, row, col, state); [x < EDGE_SIZE] is
    [x + 1 < N]. *)
Definition parseConstraintEdges (N : nat) (cell : DomCell) (row col : nat) (st : GameState)
  : option GameState :=
  match parseEdge (right_edge cell) (col + 1 <? N) (set_hedge st row col) st with
  | Some st1 => parseEdge (down_edge cell) (row + 1 <? N) (set_vedge st1 row col) st1
  | None => None
  end.

(** The "Parse cell content" chain: the symbol written, if any. *)
Definition parse_contents (cell : DomCell) : option CellState.t :=
  if has_empty cell then Some CellState.EMPTY
  else if has_moon_id cell || has_moon_svg cell then Some CellState.MOON
  else if has_sun_id cell || has_sun_svg cell then Some CellState.SUN
  else None.

(** [cells2D[row][col] = cell] for the cell of index [index]; with
    [BOARD_SIZE = 0], [index / 0] is Infinity or NaN and [cells2D[row]] is
    undefined. *)
Definition place_cell (N : nat) (g : list (list (option DomCell))) (index : nat)
  (cell : DomCell) : option (list (list (option DomCell))) :=
  if N =? 0 then None
  else set_checked g (index / N) (index mod N) (Some cell).

(** [cells.forEach((cell, index) => ...)] *)
Fixpoint fill_cells (N : nat) (g : list (list (option DomCell))) (index : nat)
  (cells : list DomCell) : option (list (list (option DomCell))) :=
  match cells with
  | [] => Some g
  | cell :: rest =>
      match place_cell N g index cell with
      | Some g' => fill_cells N g' (S index) rest
      | None => None
      end
  end.

(** The body of the nested loop at [(row, col)]; a [null] cell makes
    [cell.querySelector] throw. *)
Definition parseCellAt (N : nat) (g : list (list (option DomCell))) (st : GameState)
  (row col : nat) : option GameState :=
  match nth col (nth row g []) None with
  | None => None
  | Some cell =>
      match (match parse_contents cell with
             | Some v => set_contents st row col v
             | None => Some st
             end) with
      | Some st1 => parseConstraintEdges N cell row col st1
      | None => None
      end
  end.

(** A loop over [l] whose body may throw. *)
Fixpoint foldM {A S} (f : S -> A -> option S) (l : list A) (s : S) : option S :=
  match l with
  | [] => Some s
  | x :: l' =>
      match f s x with
      | Some s' => foldM f l' s'
      | None => None
      end
  end.

(** [for (row ...) for (col ...)], row-major. *)
Definition coords (N : nat) : list (nat * nat) :=
  flat_map (fun row => map (fun col => (row, col)) (seq 0 N)) (seq 0 N).

(** parseBoardState(): [cells] is [document.querySelectorAll('.lotka-cell')],
    [N] is [BOARD_SIZE], [st] the [state] object it fills in and returns;
    [None] when it throws. *)
Definition parseBoardState (N : nat) (cells : list DomCell) (st : GameState)
  : option GameState :=
  match fill_cells N (repeat (repeat None N) N) 0 cells with
  | Some g => foldM (fun st '(row, col) => parseCellAt N g st row col) (coords N) st
  | None => None
  end.

(** The array shapes of [gameState] for [BOARD_SIZE = N]: [N] rows of [N]
    cells, [N] rows of [EDGE_SIZE] horizontal edges, [EDGE_SIZE] rows of [N]
    vertical edges. *)
Definition dims_ok (N : nat) (st : GameState) : bool :=
  (length (gs_board st) =? N) && forallb (fun row => length row =? N) (gs_board st)
  && (length (horizontal (gs_edges st)) =? N)
  && forallb (fun row => length row =? N - 1) (horizontal (gs_edges st))
  && (length (vertical (gs_edges st)) =? N - 1)
  && forallb (fun row => length row =? N) (vertical (gs_edges st)).

(** What parsing leaves in a cell and in an edge slot. *)
Definition cell_value (cell : DomCell) (old : CellState.t) : CellState.t :=
  match parse_contents cell with Some v => v | None => old end.

Definition edge_value (el : option EdgeElem) (inRange : bool) (old : EdgeState.t)
  : EdgeState.t :=
  match el with
  | Some el =>
      if inRange then
        match edge_svg el with Some label => edge_of_label label | None => old end
      else old
  | None => old
  end.

(** The events [cell.dispatchEvent] receives, tagged with the cell index;
    the [setTimeout] pauses only delay them. *)
Inductive MouseEventType := mousedown | mouseup | click.

Definition singleClick (cellIndex : nat) : list (nat * MouseEventType) :=
  [(cellIndex, mousedown); (cellIndex, mouseup); (cellIndex, click)].

Definition doubleClick (cellIndex : nat) : list (nat * MouseEventType) :=
  singleClick cellIndex ++ singleClick cellIndex.

(** [this.baseGameState.board[row][col].contains]: TypeError out of range. *)
Definition get_checked (b : Board) (row col : nat) : option cell :=
  match nth_error b row with
  | Some r => nth_error r col
  | None => None
  end.

(** [solution.filter(... === CellState.EMPTY)] *)
Fixpoint filter_new (base : Board) (solution : list Placement) : option (list Placement) :=
  match solution with
  | [] => Some []
  | (row, col, symbol) :: rest =>
      match get_checked base row col, filter_new base rest with
      | Some v, Some l =>
          Some (if CellState.eqb v CellState.EMPTY then (row, col, symbol) :: l else l)
      | _, _ => None
      end
  end.

(** The comparator of [newPlacements.sort]: [rowA - rowB], else
    [colA - colB]; [placement_le a b] is [compare(a, b) <= 0]. *)
Definition placement_le (a b : Placement) : bool :=
  let '(rowA, colA, _) := a in
  let '(rowB, colB, _) := b in
  if negb (rowA =? rowB) then rowA <? rowB else colA <=? colB.

(** [Array.prototype.sort] is stable: insertion sort, an element going
    before the first one it compares [<= 0] with. *)
Fixpoint insert_le (x : Placement) (l : list Placement) : list Placement :=
  match l with
  | [] => [x]
  | y :: l' => if placement_le x y then x :: l else y :: insert_le x l'
  end.

Fixpoint sort_le (l : list Placement) : list Placement :=
  match l with
  | [] => []
  | x :: l' => insert_le x (sort_le l')
  end.

(** The clicks for one placement: SUN a single click, MOON a double click. *)
Definition symbolClicks (cellIndex : nat) (symbol : cell) : list (nat * MouseEventType) :=
  if CellState.eqb symbol CellState.SUN then singleClick cellIndex
  else if CellState.eqb symbol CellState.MOON then doubleClick cellIndex
  else [].

(** The loop body: [lookup cellIndex] is
    [document.querySelector('#lotka-cell-' + cellIndex)]. *)
Definition clicksFor (N : nat) (lookup : nat -> option DomCell) (p : Placement)
  : list (nat * MouseEventType) :=
  let '(row, col, symbol) := p in
  let cellIndex := row * N + col in
  match lookup cellIndex with
  | Some cell => if negb (is_locked cell) then symbolClicks cellIndex symbol else []
  | None => []
  end.

(** inputSolution(solution): the events dispatched, in order ([None] when
    it throws); the promise then resolves to [true]. *)
Definition inputSolution (N : nat) (base : Board) (lookup : nat -> option DomCell)
  (solution : list Placement) : option (list (nat * MouseEventType)) :=
  match filter_new base solution with
  | Some newPlacements => Some (flat_map (clicksFor N lookup) (sort_le newPlacements))
  | None => None
  end.

(** Every cell index below [n] is a cell of the page that is not locked. *)
Definition all_unlocked (n : nat) (lookup : nat -> option DomCell) : bool :=
  forallb (fun i => match lookup i with Some cell => negb (is_locked cell) | None => false end)
    (seq 0 n).

(** A 2x2 page: (0,0) shows a Moon and a Cross on its right edge, (0,1)
    the empty marker and a down edge without svg, (1,0) a Sun, (1,1) no
    marker and an Equal right edge (out of range: last column). *)
Definition page_cell (e m s : bool) (right down : option EdgeElem) : DomCell :=
  mkDomCell e false m false s right down false.

Definition example_cells : list DomCell :=
  [page_cell false true false (Some (mkEdgeElem (Some (Some "Cross"%string)))) None;
   page_cell true false false None (Some (mkEdgeElem None));
   page_cell false false true None None;
   page_cell false false false (Some (mkEdgeElem (Some (Some "Equal"%string)))) None].

Definition example_state : GameState := mkGameState (empty_board 2) (no_edges 2).

(** The solution solvePuzzle finds for [board_sun_00] under
    [edges_equal_00], and the events that enter it on a blank page. *)
Definition example_solution : list Placement :=
  match solvePuzzle 4 edges_equal_00 board_sun_00 with Some s => s | None => [] end.

(** A page of [n * n] unlocked cells with no marker. *)
Definition blank_page (n : nat) (i : nat) : option DomCell :=
  if i <? n * n then Some (page_cell false false false None None) else None.

Definition example_events : list (nat * MouseEventType) :=
  match inputSolution 4 board_sun_00 (blank_page 4) example_solution with
  | Some evs => evs | None => [] end.

(** ** Basic facts about cells, arrays and the board *)

Lemma CellState_eqb_spec x y : CellState.eqb x y = true <-> x = y.
Proof. destruct x, y; simpl; split; congruence. Qed.

Lemma CellState_eqb_false x y : CellState.eqb x y = false <-> x <> y.
Proof.
  rewrite <- CellState_eqb_spec. destruct (CellState.eqb x y); split; congruence.
Qed.

Lemma length_update_nth {A} i (x : A) l : length (update_nth i x l) = length l.
Proof. revert i; induction l; intros [|i]; simpl; auto. Qed.

Lemma nth_update_nth_same {A} i (x d : A) l :
  i < length l -> nth i (update_nth i x l) d = x.
Proof.
  revert i; induction l; intros [|i] H; simpl in *; try lia; auto.
  apply IHl; lia.
Qed.

Lemma nth_update_nth_other {A} i j (x d : A) l :
  i <> j -> nth j (update_nth i x l) d = nth j l d.
Proof.
  revert i j; induction l; intros [|i] [|j] H; simpl; auto; try congruence.
Qed.

Lemma update_nth_oob {A} i (x : A) l : length l <= i -> update_nth i x l = l.
Proof.
  revert i; induction l; intros [|i] H; simpl in *; auto; try lia.
  rewrite IHl; auto; lia.
Qed.

Lemma update_nth_self {A} i (d : A) l : update_nth i (nth i l d) l = l.
Proof. revert i; induction l; intros [|i]; simpl; auto; now rewrite IHl. Qed.

Lemma update_nth_twice {A} i (x y : A) l :
  update_nth i y (update_nth i x l) = update_nth i y l.
Proof. revert i; induction l; intros [|i]; simpl; auto; now rewrite IHl. Qed.

Lemma get_set_other b r c r' c' s :
  (r', c') <> (r, c) -> get (set b r c s) r' c' = get b r' c'.
Proof.
  unfold get, set. intros H.
  destruct (Nat.eq_dec r r') as [<-|Hr].
  - destruct (Nat.lt_ge_cases r (length b)) as [Hl|Hl].
    + rewrite nth_update_nth_same by auto.
      apply nth_update_nth_other. congruence.
    + now rewrite update_nth_oob by auto.
  - now rewrite nth_update_nth_other by auto.
Qed.

Lemma get_set_same b r c s :
  r < length b -> c < length (nth r b []) -> get (set b r c s) r c = s.
Proof.
  unfold get, set. intros H1 H2.
  rewrite nth_update_nth_same by auto. now apply nth_update_nth_same.
Qed.

Lemma set_get b r c : set b r c (get b r c) = b.
Proof. unfold set, get. now rewrite !update_nth_self. Qed.

Lemma set_set b r c x y : set (set b r c x) r c y = set b r c y.
Proof.
  unfold set.
  destruct (Nat.lt_ge_cases r (length b)) as [Hl|Hl].
  - rewrite nth_update_nth_same by auto. now rewrite !update_nth_twice.
  - rewrite (update_nth_oob r _ b) by auto. now rewrite update_nth_oob by auto.
Qed.

(** Restoring a cell that was EMPTY gives back the board. *)
Lemma set_set_empty b r c x :
  get b r c = CellState.EMPTY -> set (set b r c x) r c CellState.EMPTY = b.
Proof. intros H. rewrite set_set, <- H. apply set_get. Qed.

Section Facts.

Variable N : nat.
Variable e : Edges.

Lemma wf_set b r c s : wf N b -> wf N (set b r c s).
Proof.
  unfold wf, set. intros [Hl Hr]. split.
  - now rewrite length_update_nth.
  - intros r' Hr'. destruct (Nat.eq_dec r r') as [<-|Hne].
    + rewrite nth_update_nth_same by lia. rewrite length_update_nth. auto.
    + rewrite nth_update_nth_other by auto. auto.
Qed.

Lemma get_set_wf b r c r' c' s :
  wf N b -> r < N -> c < N ->
  get (set b r c s) r' c' = if (r' =? r) && (c' =? c) then s else get b r' c'.
Proof.
  intros [Hl Hr] H1 H2.
  destruct (Nat.eqb_spec r' r), (Nat.eqb_spec c' c); simpl; subst;
    try (apply get_set_other; congruence).
  apply get_set_same; [lia | rewrite Hr; auto].
Qed.

End Facts.

(** ** The search: restoration, frame, cost, shape of a success *)

Section Search.

Variable N : nat.
Variable e : Edges.

Lemma pending_tail b r c rest s :
  pending ((r, c) :: rest) b -> pending rest (set b r c s).
Proof.
  intros [Hnd Hem]. inversion Hnd; subst. split; auto.
  intros r' c' Hin. rewrite get_set_other by (intro Heq; inversion Heq; subst; auto).
  apply Hem; simpl; auto.
Qed.

Lemma pending_head b r c rest :
  pending ((r, c) :: rest) b -> get b r c = CellState.EMPTY.
Proof. intros [_ Hem]. apply Hem; simpl; auto. Qed.

Lemma attempt_true recur st r c s st' :
  attempt N e recur st r c s = (true, st') ->
  isValidPlacement N e (board st) r c s = true /\ recur (place st r c s) = (true, st').
Proof.
  unfold attempt. destruct (isValidPlacement N e (board st) r c s); [|discriminate].
  destruct (recur (place st r c s)) as [[|] st1]; intros H; inversion H; subst; auto.
Qed.

Lemma attempt_false recur st r c s st' :
  attempt N e recur st r c s = (false, st') ->
  (isValidPlacement N e (board st) r c s = false /\ st' = st)
  \/ (isValidPlacement N e (board st) r c s = true /\
      exists st1, recur (place st r c s) = (false, st1) /\ st' = unplace st1 r c).
Proof.
  unfold attempt. destruct (isValidPlacement N e (board st) r c s).
  - destruct (recur (place st r c s)) as [[|] st1]; intros H; inversion H; subst.
    right; eauto.
  - intros H; inversion H; auto.
Qed.

(** A failed attempt leaves the board and the solution as they were. *)
Lemma attempt_restores recur rest st r c s st' :
  (forall st0 st1, pending rest (board st0) -> recur st0 = (false, st1) ->
     board st1 = board st0 /\ solution st1 = solution st0) ->
  pending ((r, c) :: rest) (board st) ->
  attempt N e recur st r c s = (false, st') ->
  board st' = board st /\ solution st' = solution st.
Proof.
  intros IH Hp H. apply attempt_false in H as [[_ ->]|[_ [st1 [H1 ->]]]]; auto.
  apply IH in H1 as [Hb Hs]; [|apply pending_tail; auto].
  unfold unplace; simpl. rewrite Hb, Hs. simpl.
  rewrite set_set_empty by (eapply pending_head; eauto).
  now rewrite removelast_last.
Qed.

Lemma dfs_restores cells :
  forall st st', pending cells (board st) -> dfs N e cells st = (false, st') ->
  board st' = board st /\ solution st' = solution st.
Proof.
  induction cells as [|[r c] rest IH]; intros st st' Hp H; simpl in H.
  - discriminate.
  - destruct (attempt N e (dfs N e rest) (tick st) r c CellState.MOON) as [[|] st1] eqn:E1;
      [discriminate|].
    apply attempt_restores with (rest := rest) in E1 as [Hb1 Hs1]; auto.
    apply attempt_restores with (rest := rest) in H as [Hb Hs]; auto.
    + rewrite Hb, Hs, Hb1, Hs1. auto.
    + rewrite Hb1. auto.
Qed.

(** The search writes only the cells it is given. *)
Lemma attempt_frame recur rest st r c s ok st' :
  (forall st0 ok1 st1, recur st0 = (ok1, st1) -> forall r' c', ~ In (r', c') rest ->
     get (board st1) r' c' = get (board st0) r' c') ->
  attempt N e recur st r c s = (ok, st') ->
  forall r' c', ~ In (r', c') ((r, c) :: rest) -> get (board st') r' c' = get (board st) r' c'.
Proof.
  intros IH H r' c' Hin.
  assert (Hne : (r', c') <> (r, c)) by (intro; apply Hin; simpl; auto).
  assert (Hr : ~ In (r', c') rest) by (intro; apply Hin; simpl; auto).
  unfold attempt in H. destruct (isValidPlacement N e (board st) r c s).
  - destruct (recur (place st r c s)) as [[|] st1] eqn:E; inversion H; subst.
    + erewrite IH by eauto. simpl. now apply get_set_other.
    + simpl. rewrite get_set_other by auto. erewrite IH by eauto. simpl.
      now apply get_set_other.
  - inversion H; subst; auto.
Qed.

Lemma dfs_frame cells :
  forall st ok st', dfs N e cells st = (ok, st') ->
  forall r' c', ~ In (r', c') cells -> get (board st') r' c' = get (board st) r' c'.
Proof.
  induction cells as [|[r c] rest IH]; intros st ok st' H r' c' Hin; simpl in H.
  - inversion H; subst; auto.
  - destruct (attempt N e (dfs N e rest) (tick st) r c CellState.MOON) as [ok1 st1] eqn:E1.
    assert (H1 := attempt_frame _ _ _ _ _ _ _ _ IH E1 r' c' Hin).
    destruct ok1.
    + inversion H; subst. auto.
    + rewrite (attempt_frame _ _ _ _ _ _ _ _ IH H r' c' Hin). auto.
Qed.

(** The search reads only the board: neither its outcome nor the board it
    leaves depends on the solution array or the counter. *)
Lemma attempt_indep recur st1 st2 r c s :
  (forall a1 a2, board a1 = board a2 ->
     fst (recur a1) = fst (recur a2) /\ board (snd (recur a1)) = board (snd (recur a2))) ->
  board st1 = board st2 ->
  fst (attempt N e recur st1 r c s) = fst (attempt N e recur st2 r c s)
  /\ board (snd (attempt N e recur st1 r c s)) = board (snd (attempt N e recur st2 r c s)).
Proof.
  intros IH Hb. unfold attempt. rewrite Hb.
  destruct (isValidPlacement N e (board st2) r c s); auto.
  destruct (IH (place st1 r c s) (place st2 r c s)) as [Hf Hb'].
  { unfold place; simpl. now rewrite Hb. }
  destruct (recur (place st1 r c s)) as [o1 u1], (recur (place st2 r c s)) as [o2 u2].
  simpl in *. subst. destruct o2; simpl; auto. now rewrite Hb'.
Qed.

Lemma dfs_indep cells :
  forall st1 st2, board st1 = board st2 ->
  fst (dfs N e cells st1) = fst (dfs N e cells st2)
  /\ board (snd (dfs N e cells st1)) = board (snd (dfs N e cells st2)).
Proof.
  induction cells as [|[r c] rest IH]; intros st1 st2 Hb; simpl.
  - auto.
  - destruct (attempt_indep (dfs N e rest) (tick st1) (tick st2) r c CellState.MOON IH Hb)
      as [Hf Hb1].
    destruct (attempt N e (dfs N e rest) (tick st1) r c CellState.MOON) as [o1 u1],
             (attempt N e (dfs N e rest) (tick st2) r c CellState.MOON) as [o2 u2].
    simpl in *. subst. destruct o2; auto.
    now apply attempt_indep.
Qed.

(** Each call to [dfs] with [k] cells left makes at most [2^(k+1) - 1]
    calls to [dfs] in all. *)
Lemma attempt_calls recur st r c s B :
  (forall st0, calls (snd (recur st0)) + 1 <= calls st0 + B) -> 1 <= B ->
  calls (snd (attempt N e recur st r c s)) + 1 <= calls st + B.
Proof.
  intros HB H1. unfold attempt.
  destruct (isValidPlacement N e (board st) r c s); simpl; [|lia].
  specialize (HB (place st r c s)).
  destruct (recur (place st r c s)) as [[|] st1]; simpl in *; auto.
Qed.

Lemma dfs_calls cells :
  forall st, calls (snd (dfs N e cells st)) + 1 <= calls st + 2 ^ S (length cells).
Proof.
  induction cells as [|[r c] rest IH]; intros st; simpl.
  - lia.
  - assert (Hpos : 1 <= 2 ^ S (length rest)) by (apply Nat.le_succ_l; apply Nat.neq_0_lt_0, Nat.pow_nonzero; lia).
    pose proof (attempt_calls (dfs N e rest) (tick st) r c CellState.MOON _ IH Hpos) as H1.
    destruct (attempt N e (dfs N e rest) (tick st) r c CellState.MOON) as [[|] st1];
      simpl in *.
    + lia.
    + pose proof (attempt_calls (dfs N e rest) st1 r c CellState.SUN _ IH Hpos). lia.
Qed.

End Search.

Section Success.

Variable N : nat.
Variable e : Edges.

Lemma map_fst_combine {A B} (l1 : list A) (l2 : list B) :
  length l1 = length l2 -> map fst (combine l1 l2) = l1.
Proof.
  revert l2; induction l1; intros [|y l2] H; simpl in *; try discriminate; auto.
  f_equal. apply IHl1. lia.
Qed.

Definition dfs_shape (cells : list (nat * nat)) (st st' : St) : Prop :=
  exists syms,
    length syms = length cells
    /\ Forall (fun s => s = CellState.SUN \/ s = CellState.MOON) syms
    /\ solution st' = solution st ++ combine cells syms
    /\ board st' = apply_placements (board st) (combine cells syms)
    /\ valid_seq N e (board st) (combine cells syms)
    /\ moon_first N e (board st) (combine cells syms).

Lemma shape_cons r c rest st s st' :
  s = CellState.SUN \/ s = CellState.MOON ->
  isValidPlacement N e (board st) r c s = true ->
  (s = CellState.SUN ->
     isValidPlacement N e (board st) r c CellState.MOON = false
     \/ fst (dfs N e rest (mkSt (set (board st) r c CellState.MOON) [] 0)) = false) ->
  dfs_shape rest (place st r c s) st' ->
  dfs_shape ((r, c) :: rest) st st'.
Proof.
  intros Hs Hv Hm [syms [Hl [Hf [Hsol [Hb [Hval Hmf]]]]]].
  exists (s :: syms). simpl in *.
  split; [auto|]. split; [constructor; auto|].
  split; [rewrite Hsol; now rewrite <- app_assoc|].
  split; [exact Hb|]. split; [auto|].
  split; auto. rewrite map_fst_combine by auto. auto.
Qed.

(** On success the placements are the given cells, in order, each with
    the symbol left by the search, every one valid when it was made, and
    MOON committed wherever it could lead to a solution. *)
Lemma dfs_success cells :
  forall st st', pending cells (board st) -> dfs N e cells st = (true, st') ->
  dfs_shape cells st st'.
Proof.
  induction cells as [|[r c] rest IH]; intros st st' Hp H; simpl in H.
  - inversion H; subst. exists []. simpl. repeat split; auto. now rewrite app_nil_r.
  - destruct (attempt N e (dfs N e rest) (tick st) r c CellState.MOON) as [[|] st1] eqn:E1.
    + inversion H; subst.
      apply attempt_true in E1 as [Hv Hr]. simpl in Hv.
      apply IH in Hr; [|apply pending_tail; auto].
      eapply shape_cons with (s := CellState.MOON); eauto. discriminate.
    + assert (Hb1 : board st1 = board st /\ solution st1 = solution st).
      { apply attempt_restores with (rest := rest) in E1; auto.
        intros; eapply dfs_restores; eauto. }
      apply attempt_true in H as [Hv Hr].
      assert (Hst : board (place st1 r c CellState.SUN) = board (place st r c CellState.SUN)
                    /\ solution (place st1 r c CellState.SUN)
                       = solution (place st r c CellState.SUN)).
      { unfold place; simpl. destruct Hb1 as [-> ->]. auto. }
      apply IH in Hr; [|rewrite (proj1 Hst); apply pending_tail; auto].
      destruct Hb1 as [Hb1 Hs1]. rewrite Hb1 in Hv.
      eapply shape_cons with (s := CellState.SUN); eauto.
      * intros _. apply attempt_false in E1 as [[HM _]|[_ [st2 [H2 _]]]]; auto.
        right.
        destruct (dfs_indep N e rest (mkSt (set (board st) r c CellState.MOON) [] 0)
                    (place (tick st) r c CellState.MOON) eq_refl) as [Hf _].
        rewrite Hf, H2. reflexivity.
      * destruct Hr as [syms [Hl [Hf [Hsol [Hb [Hval Hmf]]]]]].
        exists syms. rewrite (proj1 Hst), (proj2 Hst) in *. repeat split; auto.
Qed.

End Success.

(** ** The list of empty cells and its heuristic order *)

Section Order.

Variable N : nat.

Lemma in_emptyCells b r c :
  In (r, c) (emptyCells N b) <-> r < N /\ c < N /\ get b r c = CellState.EMPTY.
Proof.
  unfold emptyCells. rewrite in_flat_map. split.
  - intros [r' [Hr Hin]]. apply in_map_iff in Hin as [c' [Heq Hin]].
    inversion Heq; subst. apply filter_In in Hin as [Hc Hg].
    apply in_seq in Hr, Hc. apply CellState_eqb_spec in Hg. repeat split; auto; lia.
  - intros [Hr [Hc Hg]]. exists r. split; [apply in_seq; lia|].
    apply in_map_iff. exists c. split; auto.
    apply filter_In. split; [apply in_seq; lia|]. now apply CellState_eqb_spec.
Qed.

Lemma StronglySorted_app {A} (R : A -> A -> Prop) l1 l2 :
  StronglySorted R l1 -> StronglySorted R l2 ->
  (forall x y, In x l1 -> In y l2 -> R x y) -> StronglySorted R (l1 ++ l2).
Proof.
  induction l1 as [|x l1 IH]; intros H1 H2 H; simpl; auto.
  inversion H1; subst. constructor.
  - apply IH; auto. intros; apply H; simpl; auto.
  - apply Forall_app. split; auto. apply Forall_forall. intros; apply H; simpl; auto.
Qed.

Lemma StronglySorted_filter {A} (R : A -> A -> Prop) f l :
  StronglySorted R l -> StronglySorted R (filter f l).
Proof.
  induction l as [|x l IH]; intros H; simpl; auto.
  inversion H; subst. destruct (f x); auto. constructor; auto.
  apply Forall_forall. intros y Hy. apply filter_In in Hy as [Hy _].
  eapply Forall_forall in H3; eauto.
Qed.

Lemma StronglySorted_seq s n : StronglySorted lt (seq s n).
Proof.
  revert s; induction n; intros s; simpl; constructor; auto.
  apply Forall_forall. intros y Hy. apply in_seq in Hy. lia.
Qed.

Lemma StronglySorted_map_pair row l :
  StronglySorted lt l -> StronglySorted lexlt (map (fun col => (row, col)) l).
Proof.
  induction l as [|x l IH]; intros H; simpl; constructor; inversion H; subst; auto.
  apply Forall_map. eapply Forall_impl; [|eauto]. intros y Hy. right. simpl. auto.
Qed.

Lemma rows_row_major (g : nat -> nat -> bool) n :
  forall s, StronglySorted lexlt
    (flat_map (fun row => map (fun col => (row, col)) (filter (g row) (seq 0 N))) (seq s n)).
Proof.
  induction n as [|n IH]; intros s; simpl; [constructor|].
  apply StronglySorted_app; auto.
  - apply StronglySorted_map_pair, StronglySorted_filter, StronglySorted_seq.
  - intros x y Hx Hy. apply in_map_iff in Hx as [c [<- _]].
    apply in_flat_map in Hy as [r [Hr Hy]]. apply in_map_iff in Hy as [c' [<- _]].
    apply in_seq in Hr. left. simpl. lia.
Qed.

Lemma emptyCells_row_major b : StronglySorted lexlt (emptyCells N b).
Proof. apply rows_row_major. Qed.

Lemma lexlt_irrefl p : ~ lexlt p p.
Proof. unfold lexlt. lia. Qed.

Lemma NoDup_StronglySorted {A} (R : A -> A -> Prop) l :
  (forall x, ~ R x x) -> StronglySorted R l -> NoDup l.
Proof.
  intros Hirr. induction l as [|x l IH]; intros H; constructor; inversion H; subst; auto.
  intros Hin. eapply Forall_forall in H3; eauto. eapply Hirr; eauto.
Qed.

Lemma emptyCells_NoDup b : NoDup (emptyCells N b).
Proof.
  eapply NoDup_StronglySorted; [apply lexlt_irrefl|apply emptyCells_row_major].
Qed.

Lemma insert_by_perm key x l : Permutation (insert_by key x l) (x :: l).
Proof.
  induction l as [|y l IH]; simpl; auto.
  destruct (key x <=? key y); auto.
  rewrite IH. apply perm_swap.
Qed.

Lemma sort_by_perm key l : Permutation (sort_by key l) l.
Proof.
  induction l as [|x l IH]; simpl; auto.
  rewrite insert_by_perm. now apply perm_skip.
Qed.

Lemma insert_by_hd key x y l :
  HdRel (heur_lt key) y l -> heur_lt key y x -> HdRel (heur_lt key) y (insert_by key x l).
Proof.
  destruct l as [|z l]; simpl; intros H1 H2; auto.
  destruct (key x <=? key z); auto. inversion H1; auto.
Qed.

(** Stable insertion of [x], which precedes in row-major order every cell
    already sorted, keeps the list in heuristic order. *)
Lemma insert_by_sorted key x l :
  Sorted (heur_lt key) l -> (forall y, In y l -> lexlt x y) ->
  Sorted (heur_lt key) (insert_by key x l).
Proof.
  induction l as [|y l IH]; intros Hs Hx; simpl; auto.
  inversion Hs; subst.
  destruct (Nat.leb_spec (key x) (key y)).
  - constructor; auto. constructor.
    destruct (Nat.eq_dec (key x) (key y)); [right; split; auto|left; lia].
    apply Hx; simpl; auto.
  - constructor.
    + apply IH; auto. intros; apply Hx; simpl; auto.
    + apply insert_by_hd; auto. left; lia.
Qed.

Lemma sort_by_sorted key l :
  StronglySorted lexlt l -> Sorted (heur_lt key) (sort_by key l).
Proof.
  induction l as [|x l IH]; intros H; simpl; auto.
  inversion H; subst. apply insert_by_sorted; auto.
  intros y Hy. apply (Permutation_in _ (sort_by_perm key l)) in Hy.
  eapply Forall_forall in H3; eauto.
Qed.

Lemma sortedEmptyCells_pending b : pending (sortedEmptyCells N b) b.
Proof.
  unfold sortedEmptyCells. split.
  - eapply Permutation_NoDup; [symmetry; apply sort_by_perm|apply emptyCells_NoDup].
  - intros r c Hin. apply (Permutation_in _ (sort_by_perm _ _)) in Hin.
    apply in_emptyCells in Hin. tauto.
Qed.

Lemma in_sortedEmptyCells b r c :
  In (r, c) (sortedEmptyCells N b) <-> r < N /\ c < N /\ get b r c = CellState.EMPTY.
Proof.
  unfold sortedEmptyCells. rewrite <- in_emptyCells.
  split; apply Permutation_in; [|symmetry]; apply sort_by_perm.
Qed.

End Order.

(** ** Single placements: the checks and the rules they protect *)

Section Checks.

Variable N : nat.
Variable e : Edges.

Lemma checkThreeInRowHorizontal_spec b r c s :
  checkThreeInRowHorizontal N b r c s = true <->
  (2 <= c /\ get b r (c - 1) = s /\ get b r (c - 2) = s)
  \/ (c + 3 <= N /\ get b r (c + 1) = s /\ get b r (c + 2) = s)
  \/ (0 < c /\ c + 1 < N /\ get b r (c - 1) = s /\ get b r (c + 1) = s).
Proof.
  unfold checkThreeInRowHorizontal.
  destruct (Nat.leb_spec 2 c), (Nat.leb_spec (c + 3) N), (Nat.ltb_spec 0 c),
    (Nat.ltb_spec (c + 1) N); simpl;
    rewrite ?orb_true_iff, ?andb_true_iff, ?CellState_eqb_spec;
    split; intros; intuition (try lia; try discriminate).
Qed.

Lemma checkThreeInRowVertical_spec b r c s :
  checkThreeInRowVertical N b r c s = true <->
  (2 <= r /\ get b (r - 1) c = s /\ get b (r - 2) c = s)
  \/ (r + 3 <= N /\ get b (r + 1) c = s /\ get b (r + 2) c = s)
  \/ (0 < r /\ r + 1 < N /\ get b (r - 1) c = s /\ get b (r + 1) c = s).
Proof.
  unfold checkThreeInRowVertical.
  destruct (Nat.leb_spec 2 r), (Nat.leb_spec (r + 3) N), (Nat.ltb_spec 0 r),
    (Nat.ltb_spec (r + 1) N); simpl;
    rewrite ?orb_true_iff, ?andb_true_iff, ?CellState_eqb_spec;
    split; intros; intuition (try lia; try discriminate).
Qed.

Lemma isValidPlacement_true b r c s :
  isValidPlacement N e b r c s = true ->
  checkThreeInRowHorizontal N b r c s = false /\ checkThreeInRowVertical N b r c s = false
  /\ checkRowColumnBalance N b r c s = false /\ checkEdgeConstraints N e b r c s = false.
Proof.
  unfold isValidPlacement.
  destruct (checkThreeInRowHorizontal N b r c s), (checkThreeInRowVertical N b r c s),
    (checkRowColumnBalance N b r c s), (checkEdgeConstraints N e b r c s); auto;
    discriminate.
Qed.

Lemma count_upto_ext n f g :
  (forall j, j < n -> f j = g j) -> count_upto n f = count_upto n g.
Proof.
  induction n; intros H; simpl; auto.
  rewrite IHn by (intros; apply H; lia). rewrite H by lia. auto.
Qed.

Lemma count_upto_point n c f g :
  c < n -> (forall j, j < n -> j <> c -> g j = f j) ->
  count_upto n g + (if f c then 1 else 0) = count_upto n f + (if g c then 1 else 0).
Proof.
  induction n; intros Hc H; simpl; [lia|].
  destruct (Nat.eq_dec c n) as [->|Hne].
  - rewrite (count_upto_ext n g f) by (intros; apply H; lia).
    destruct (f n), (g n); lia.
  - assert (IH := IHn ltac:(lia) ltac:(intros; apply H; lia)).
    rewrite H by lia. destruct (f n), (f c), (g c); lia.
Qed.

Lemma count_row_set b r c s i s' :
  wf N b -> r < N -> c < N -> get b r c = CellState.EMPTY -> s' <> CellState.EMPTY ->
  count_row N (set b r c s) i s'
  = count_row N b i s' + (if (i =? r) && CellState.eqb s s' then 1 else 0).
Proof.
  intros Hwf Hr Hc He Hs'. unfold count_row.
  destruct (Nat.eqb_spec i r) as [->|Hne]; simpl.
  - pose proof (count_upto_point N c (fun j => CellState.eqb (get b r j) s')
                  (fun j => CellState.eqb (get (set b r c s) r j) s') Hc) as H.
    cbv beta in H. rewrite He, (get_set_wf N), !Nat.eqb_refl in H by auto. cbn [andb] in H.
    assert (CellState.eqb CellState.EMPTY s' = false) as Hf
      by (apply CellState_eqb_false; auto).
    rewrite Hf in H. rewrite <- H; [lia|].
    intros j Hj Hjc. rewrite (get_set_wf N) by auto. rewrite Nat.eqb_refl.
    apply Nat.eqb_neq in Hjc. rewrite Hjc. auto.
  - rewrite Nat.add_0_r. apply count_upto_ext. intros j _.
    rewrite get_set_other by congruence. auto.
Qed.

Lemma count_col_set b r c s i s' :
  wf N b -> r < N -> c < N -> get b r c = CellState.EMPTY -> s' <> CellState.EMPTY ->
  count_col N (set b r c s) i s'
  = count_col N b i s' + (if (i =? c) && CellState.eqb s s' then 1 else 0).
Proof.
  intros Hwf Hr Hc He Hs'. unfold count_col.
  destruct (Nat.eqb_spec i c) as [->|Hne]; simpl.
  - pose proof (count_upto_point N r (fun j => CellState.eqb (get b j c) s')
                  (fun j => CellState.eqb (get (set b r c s) j c) s') Hr) as H.
    cbv beta in H. rewrite He, (get_set_wf N), !Nat.eqb_refl in H by auto. cbn [andb] in H.
    assert (CellState.eqb CellState.EMPTY s' = false) as Hf
      by (apply CellState_eqb_false; auto).
    rewrite Hf in H. rewrite <- H; [lia|].
    intros j Hj Hjr. rewrite (get_set_wf N) by auto. rewrite Nat.eqb_refl.
    apply Nat.eqb_neq in Hjr. rewrite Hjr. auto.
  - rewrite Nat.add_0_r. apply count_upto_ext. intros j _.
    rewrite get_set_other by congruence. auto.
Qed.

Lemma edge_violated_false edge other s :
  s <> CellState.EMPTY -> edge_violated edge other s = false ->
  edge_ok edge s other /\ edge_ok edge other s.
Proof.
  unfold edge_ok, edge_violated, neq.
  destruct edge, other, s; simpl; intros; split; try tauto; try discriminate;
    right; right; split; intros; congruence.
Qed.

End Checks.

Section Preserve.

Variable N : nat.
Variable e : Edges.

Lemma checkH_false b r c s :
  checkThreeInRowHorizontal N b r c s = false ->
  (forall j, j + 2 = c -> get b r j = s -> get b r (j + 1) = s -> False)
  /\ (c + 3 <= N -> get b r (c + 1) = s -> get b r (c + 2) = s -> False)
  /\ (forall j, j + 1 = c -> c + 1 < N -> get b r j = s -> get b r (c + 1) = s -> False).
Proof.
  intros H. assert (Hn : ~ (checkThreeInRowHorizontal N b r c s = true)) by congruence.
  rewrite checkThreeInRowHorizontal_spec in Hn.
  split; [|split]; intros.
  - subst c. apply Hn. left. replace (j + 2 - 1) with (j + 1) by lia.
    replace (j + 2 - 2) with j by lia. split; [lia|auto].
  - apply Hn. right; left. auto.
  - subst c. apply Hn. right; right. replace (j + 1 - 1) with j by lia. split; [lia|auto].
Qed.

Lemma checkV_false b r c s :
  checkThreeInRowVertical N b r c s = false ->
  (forall j, j + 2 = r -> get b j c = s -> get b (j + 1) c = s -> False)
  /\ (r + 3 <= N -> get b (r + 1) c = s -> get b (r + 2) c = s -> False)
  /\ (forall j, j + 1 = r -> r + 1 < N -> get b j c = s -> get b (r + 1) c = s -> False).
Proof.
  intros H. assert (Hn : ~ (checkThreeInRowVertical N b r c s = true)) by congruence.
  rewrite checkThreeInRowVertical_spec in Hn.
  split; [|split]; intros.
  - subst r. apply Hn. left. replace (j + 2 - 1) with (j + 1) by lia.
    replace (j + 2 - 2) with j by lia. split; [lia|auto].
  - apply Hn. right; left. auto.
  - subst r. apply Hn. right; right. replace (j + 1 - 1) with j by lia. split; [lia|auto].
Qed.

(** One line (a row or a column) as a function of the index: changing the
    EMPTY cell [c] to [s], when none of the three windows through [c] already
    holds two copies of [s], creates no run of three. *)
Lemma line_preserve (f g : nat -> cell) c s n :
  (forall j, j <> c -> g j = f j) -> g c = s ->
  (forall j, j + 2 < n -> f j <> CellState.EMPTY -> f j = f (j + 1) ->
     f (j + 1) = f (j + 2) -> False) ->
  (forall j, j + 2 = c -> f j = s -> f (j + 1) = s -> False) ->
  (c + 3 <= n -> f (c + 1) = s -> f (c + 2) = s -> False) ->
  (forall j, j + 1 = c -> c + 1 < n -> f j = s -> f (c + 1) = s -> False) ->
  forall j, j + 2 < n -> g j <> CellState.EMPTY -> g j = g (j + 1) ->
    g (j + 1) = g (j + 2) -> False.
Proof.
  intros Hg Hgc Hf HB HA HS j Hj Hne H1 H2.
  destruct (Nat.eq_dec j c) as [->|Hjc].
  - rewrite Hgc in H1. rewrite (Hg (c + 1)) in H1, H2 by lia.
    rewrite (Hg (c + 2)) in H2 by lia. apply HA; [lia|auto|congruence].
  - rewrite (Hg j) in Hne, H1 by auto.
    destruct (Nat.eq_dec (j + 1) c) as [Hj1|Hj1].
    + rewrite Hj1, Hgc in H1, H2. replace (j + 2) with (c + 1) in H2 by lia.
      rewrite (Hg (c + 1)) in H2 by lia. apply (HS j); auto; lia.
    + rewrite (Hg (j + 1)) in H1, H2 by auto.
      destruct (Nat.eq_dec (j + 2) c) as [Hj2|Hj2].
      * rewrite Hj2, Hgc in H2. apply (HB j); auto; congruence.
      * rewrite (Hg (j + 2)) in H2 by auto. apply (Hf j); auto.
Qed.

(** A valid placement on an EMPTY cell keeps the rules of a partial board. *)
Lemma place_preserves b r c s :
  wf N b -> prefilled_ok N e b -> r < N -> c < N -> get b r c = CellState.EMPTY ->
  s <> CellState.EMPTY -> isValidPlacement N e b r c s = true ->
  prefilled_ok N e (set b r c s).
Proof.
  intros Hwf [Hbal [Hrow [Hcol Hv]]] Hr Hc He Hs Hval.
  apply isValidPlacement_true in Hval as [HH [HV [HB HE]]].
  destruct (checkH_false _ _ _ _ HH) as [HH1 [HH2 HH3]].
  destruct (checkV_false _ _ _ _ HV) as [HV1 [HV2 HV3]].
  unfold checkRowColumnBalance in HB. apply orb_false_iff in HB as [HB1 HB2].
  apply Nat.ltb_ge in HB1, HB2.
  unfold checkEdgeConstraints, checkEdgeConstraintsVertical in HE.
  apply orb_false_iff in HE as [_ HE]. apply orb_false_iff in HE as [HEd HEu].
  split; [|split; [|split]].
  - intros i s' Hi Hs'. rewrite (count_row_set N), (count_col_set N) by auto.
    destruct (Hbal i s' Hi Hs') as [H1 H2].
    destruct (CellState.eqb s s') eqn:Es.
    + apply CellState_eqb_spec in Es; subst s'.
      destruct (Nat.eqb_spec i r); destruct (Nat.eqb_spec i c); subst; simpl; split; lia.
    + rewrite !andb_false_r. split; lia.
  - intros r0 c0 Hr0 Hc0 Hne H1 H2.
    destruct (Nat.eq_dec r0 r) as [->|Hrr].
    + refine (line_preserve (fun j => get b r j) (fun j => get (set b r c s) r j) c s N
                _ _ _ HH1 HH2 HH3 c0 Hc0 Hne H1 H2).
      * intros j Hj. apply get_set_other. congruence.
      * apply get_set_same; [destruct Hwf as [-> _]; auto|destruct Hwf as [_ ->]; auto].
      * intros j Hj. apply Hrow; auto.
    + rewrite !get_set_other in Hne by congruence.
      rewrite !get_set_other in H1 by congruence. rewrite !get_set_other in H2 by congruence. exact (Hrow r0 c0 Hr0 Hc0 Hne H1 H2).
  - intros r0 c0 Hc0 Hr0 Hne H1 H2.
    destruct (Nat.eq_dec c0 c) as [->|Hcc].
    + refine (line_preserve (fun j => get b j c) (fun j => get (set b r c s) j c) r s N
                _ _ _ HV1 HV2 HV3 r0 Hr0 Hne H1 H2).
      * intros j Hj. apply get_set_other. congruence.
      * apply get_set_same; [destruct Hwf as [-> _]; auto|destruct Hwf as [_ ->]; auto].
      * intros j Hj. apply Hcol; auto.
    + rewrite !get_set_other in Hne by congruence.
      rewrite !get_set_other in H1 by congruence. rewrite !get_set_other in H2 by congruence. exact (Hcol r0 c0 Hc0 Hr0 Hne H1 H2).
  - intros r0 c0 Hr0 Hc0.
    assert (Hsame : get (set b r c s) r c = s)
      by (apply get_set_same; [destruct Hwf as [-> _]; auto|destruct Hwf as [_ ->]; auto]).
    destruct (Nat.eq_dec c0 c) as [->|Hcc];
      [|rewrite !get_set_other by congruence; apply Hv; auto].
    destruct (Nat.eq_dec r0 r) as [->|Hr1].
    + rewrite Hsame, get_set_other by (intro Heq; inversion Heq; lia).
      destruct (Nat.ltb_spec (r + 1) N); [|lia].
      apply edge_violated_false in HEd as [HEd _]; auto.
    + rewrite (get_set_other b r c r0 c) by congruence.
      destruct (Nat.eq_dec (r0 + 1) r) as [<-|Hr2].
      * rewrite Hsame. destruct (Nat.ltb_spec 0 (r0 + 1)); [|lia].
        replace (r0 + 1 - 1) with r0 in HEu by lia.
        apply edge_violated_false in HEu as [_ HEu]; auto.
      * rewrite get_set_other by congruence. apply Hv; auto.
Qed.

End Preserve.

(** ** Applying a solution *)

Section Apply.

Variable N : nat.
Variable e : Edges.

Lemma get_apply_notin b ps r c :
  ~ In (r, c) (map fst ps) -> get (apply_placements b ps) r c = get b r c.
Proof.
  revert b; induction ps as [|[[r' c'] s'] ps IH]; intros b Hin; simpl in *; auto.
  rewrite IH by tauto. apply get_set_other. intro Heq; apply Hin; left; auto.
Qed.

Lemma wf_apply b ps : wf N b -> wf N (apply_placements b ps).
Proof.
  revert b; induction ps as [|[[r c] s] ps IH]; intros b Hwf; simpl; auto.
  apply IH, wf_set; auto.
Qed.

Lemma get_apply_in b ps r c s :
  wf N b -> (forall r' c', In (r', c') (map fst ps) -> r' < N /\ c' < N) ->
  NoDup (map fst ps) -> In (r, c, s) ps -> get (apply_placements b ps) r c = s.
Proof.
  revert b; induction ps as [|[[r' c'] s'] ps IH]; intros b Hwf Hrange Hnd Hin;
    simpl in *; [tauto|].
  inversion Hnd; subst. destruct Hin as [Heq|Hin].
  - inversion Heq; subst. rewrite get_apply_notin by auto.
    destruct (Hrange r c (or_introl eq_refl)).
    apply get_set_same; [destruct Hwf as [-> _]; auto|destruct Hwf as [_ ->]; auto].
  - apply IH; auto. apply wf_set; auto.
Qed.

(** Placements that were each valid in turn keep the rules of the board. *)
Lemma valid_seq_rules b ps :
  wf N b -> prefilled_ok N e b -> pending (map fst ps) b ->
  (forall r c, In (r, c) (map fst ps) -> r < N /\ c < N) ->
  Forall (fun p => snd p <> CellState.EMPTY) ps ->
  valid_seq N e b ps -> prefilled_ok N e (apply_placements b ps).
Proof.
  revert b; induction ps as [|[[r c] s] ps IH]; intros b Hwf Hok Hp Hrange Hs Hval;
    simpl in *; auto.
  destruct Hval as [Hv Hval]. inversion Hs; subst.
  destruct (Hrange r c (or_introl eq_refl)).
  apply IH; auto.
  - apply wf_set; auto.
  - apply (place_preserves N); auto. eapply pending_head; eauto.
  - eapply pending_tail; eauto.
Qed.

Lemma count_full n (f : nat -> cell) :
  (forall j, j < n -> f j <> CellState.EMPTY) ->
  count_upto n (fun j => CellState.eqb (f j) CellState.SUN)
  + count_upto n (fun j => CellState.eqb (f j) CellState.MOON) = n.
Proof.
  induction n; intros H; simpl; auto.
  assert (IH := IHn ltac:(intros; apply H; lia)).
  assert (Hn := H n ltac:(lia)). destruct (f n); simpl; try congruence; lia.
Qed.

(** What a successful [solvePuzzle] returns. *)
Lemma solve_some b sol :
  solvePuzzle N e b = Some sol ->
  exists syms,
    length syms = length (sortedEmptyCells N b)
    /\ Forall (fun s => s = CellState.SUN \/ s = CellState.MOON) syms
    /\ sol = combine (sortedEmptyCells N b) syms
    /\ board (snd (solvePuzzle_run N e b)) = apply_placements b sol
    /\ valid_seq N e b sol /\ moon_first N e b sol.
Proof.
  unfold solvePuzzle. destruct (solvePuzzle_run N e b) as [[|] st] eqn:E; [|discriminate].
  intros H; inversion H; subst; clear H.
  apply dfs_success in E; [|apply sortedEmptyCells_pending].
  destruct E as [syms [Hl [Hf [Hsol [Hb [Hval Hmf]]]]]].
  simpl in *. exists syms. rewrite Hsol. repeat split; auto.
Qed.

Lemma solve_some_cells b sol :
  solvePuzzle N e b = Some sol -> map fst sol = sortedEmptyCells N b.
Proof.
  intros H. destruct (solve_some b sol H) as [syms [Hl [_ [-> _]]]].
  apply map_fst_combine; auto.
Qed.

Lemma solve_some_symbols b sol :
  solvePuzzle N e b = Some sol ->
  Forall (fun p => snd p = CellState.SUN \/ snd p = CellState.MOON) sol.
Proof.
  intros H. destruct (solve_some b sol H) as [syms [Hl [Hf [-> _]]]].
  apply Forall_forall. intros [p s] Hin. simpl.
  apply in_combine_r in Hin. eapply Forall_forall in Hf; eauto.
Qed.

End Apply.

(** ** The empty board *)

Lemma nth_repeat_in {A} (x d : A) n i : i < n -> nth i (repeat x n) d = x.
Proof. revert i; induction n; intros [|i] H; simpl; auto; try lia. apply IHn; lia. Qed.

Lemma get_empty_board n r c : get (empty_board n) r c = CellState.EMPTY.
Proof.
  unfold get, empty_board.
  destruct (Nat.lt_ge_cases r n).
  - rewrite nth_repeat_in by auto. destruct (Nat.lt_ge_cases c n).
    + apply nth_repeat_in; auto.
    + apply nth_overflow. rewrite repeat_length. auto.
  - rewrite (nth_overflow (repeat _ n)) by (rewrite repeat_length; auto).
    destruct c; auto.
Qed.

Lemma wf_empty_board n : wf n (empty_board n).
Proof.
  unfold wf, empty_board. rewrite repeat_length. split; auto.
  intros r Hr. rewrite nth_repeat_in by auto. apply repeat_length.
Qed.

Lemma count_upto_zero n f : (forall j, j < n -> f j = false) -> count_upto n f = 0.
Proof. induction n; intros H; simpl; auto. rewrite H, IHn; auto. Qed.

Lemma prefilled_ok_empty_board n e : prefilled_ok n e (empty_board n).
Proof.
  assert (Hc : forall s, s <> CellState.EMPTY ->
            forall x y, CellState.eqb (get (empty_board n) x y) s = false).
  { intros s Hs x y. rewrite get_empty_board. apply CellState_eqb_false. auto. }
  split; [|split; [|split]].
  - intros i s Hi Hs. unfold count_row, count_col.
    rewrite !count_upto_zero by (intros; apply Hc; auto). lia.
  - intros r c _ _ Hne. rewrite get_empty_board in Hne. tauto.
  - intros r c _ _ Hne. rewrite get_empty_board in Hne. tauto.
  - intros r c _ _. left. apply get_empty_board.
Qed.

Lemma no_empty_cell_spec n b :
  no_empty_cell n b = true -> forall r c, r < n -> c < n -> get b r c <> CellState.EMPTY.
Proof.
  unfold no_empty_cell. intros H r c Hr Hc.
  rewrite forallb_forall in H. specialize (H r ltac:(apply in_seq; lia)).
  rewrite forallb_forall in H. specialize (H c ltac:(apply in_seq; lia)).
  unfold neq in H. apply negb_true_iff, CellState_eqb_false in H. auto.
Qed.

Lemma moon_first_nth N e b ps :
  moon_first N e b ps ->
  forall i r c, nth_error ps i = Some (r, c, CellState.SUN) ->
  let bi := apply_placements b (firstn i ps) in
  isValidPlacement N e bi r c CellState.MOON = false
  \/ fst (dfs N e (map fst (skipn (S i) ps)) (mkSt (set bi r c CellState.MOON) [] 0)) = false.
Proof.
  revert b; induction ps as [|[[r0 c0] s0] ps IH]; intros b Hm [|i] r c Hi;
    simpl in *; try discriminate.
  - inversion Hi; subst. apply (proj1 Hm). auto.
  - apply (IH _ (proj2 Hm) i r c Hi).
Qed.

(** * The claims *)

(** C1 (as amended): on a board of [N] rows of [N] cells whose pre-filled
    cells already respect the rules among themselves (no row or column with
    more than N/2 of a symbol, no run of three, every vertical edge between
    two filled cells respected), the board a returned Solution yields has no
    EMPTY cell, exactly N/2 SUN and N/2 MOON in every row and column, no three
    consecutive identical symbols in any row or column, and every vertical
    EQUAL / OPPOSITE edge satisfied.  Horizontal edges are not covered: the
    horizontal edge check looks only at the right-hand neighbour (see C2). *)
Theorem solve_complete_when_prefilled_ok N e b sol :
  wf N b -> prefilled_ok N e b -> solvePuzzle N e b = Some sol ->
  let b' := apply_placements b sol in
  (forall r c, r < N -> c < N -> get b' r c <> CellState.EMPTY)
  /\ (forall i, i < N ->
        2 * count_row N b' i CellState.SUN = N /\ 2 * count_row N b' i CellState.MOON = N
        /\ 2 * count_col N b' i CellState.SUN = N /\ 2 * count_col N b' i CellState.MOON = N)
  /\ no_three_row N b' /\ no_three_col N b'
  /\ (forall r c, r + 1 < N -> c < N ->
        (vedge e r c = EdgeState.EQUAL -> get b' r c = get b' (r + 1) c)
        /\ (vedge e r c = EdgeState.OPPOSITE -> get b' r c <> get b' (r + 1) c)).
Proof.
  intros Hwf Hok Hs b'.
  assert (Hcells := solve_some_cells N e b sol Hs).
  assert (Hsyms := solve_some_symbols N e b sol Hs).
  destruct (solve_some N e b sol Hs) as [_ [_ [_ [_ [_ [Hval _]]]]]].
  assert (Hpend : pending (map fst sol) b)
    by (rewrite Hcells; apply sortedEmptyCells_pending).
  assert (Hrange : forall r c, In (r, c) (map fst sol) -> r < N /\ c < N).
  { intros r c Hin. rewrite Hcells, in_sortedEmptyCells in Hin. tauto. }
  assert (Hne : Forall (fun p => snd p <> CellState.EMPTY) sol).
  { eapply Forall_impl; [|exact Hsyms]. intros p [-> | ->]; discriminate. }
  assert (Hok' : prefilled_ok N e b')
    by (unfold b'; apply (valid_seq_rules N e b sol); auto).
  assert (Hfull : forall r c, r < N -> c < N -> get b' r c <> CellState.EMPTY).
  { intros r c Hr Hc. destruct (get b r c) eqn:Eg.
    - assert (Hin : In (r, c) (map fst sol))
        by (rewrite Hcells, in_sortedEmptyCells; auto).
      apply in_map_iff in Hin as [[[r1 c1] s1] [Heq Hin]]. simpl in Heq. inversion Heq; subst.
      unfold b'. rewrite (get_apply_in N b sol r c s1); auto; [|apply Hpend].
      eapply Forall_forall in Hne; eauto. exact Hne.
    - unfold b'. rewrite get_apply_notin; [congruence|].
      intro Hin. apply Hpend in Hin. congruence.
    - unfold b'. rewrite get_apply_notin; [congruence|].
      intro Hin. apply Hpend in Hin. congruence. }
  destruct Hok' as [Hbal [Hrow [Hcol Hv]]].
  split; [exact Hfull|]. split; [|split; [exact Hrow|split; [exact Hcol|]]].
  - intros i Hi.
    destruct (Hbal i CellState.SUN Hi ltac:(discriminate)) as [H1 H2].
    destruct (Hbal i CellState.MOON Hi ltac:(discriminate)) as [H3 H4].
    assert (Hr := count_full N (fun j => get b' i j) (fun j Hj => Hfull i j Hi Hj)).
    assert (Hc := count_full N (fun j => get b' j i) (fun j Hj => Hfull j i Hj Hi)).
    unfold count_row, count_col in *. lia.
  - intros r c Hr Hc. destruct (Hv r c Hr Hc) as [H|[H|[HE HO]]].
    + exfalso. apply (Hfull r c); auto; lia.
    + exfalso. apply (Hfull (r + 1) c); auto.
    + auto.
Qed.

(** C1: a board whose pre-filled column 0 already holds three SUNs in a row
    gets a Solution, and the board it yields keeps that run: the claim that
    every returned Solution has no three-in-a-row fails. *)
Lemma solve_complete_counterexample :
  ~ (forall sol, solvePuzzle 6 (no_edges 6) board_col_run = Some sol ->
       no_three_col 6 (apply_placements board_col_run sol)).
Proof.
  intros H.
  remember (solvePuzzle 6 (no_edges 6) board_col_run) as o eqn:Ho.
  vm_compute in Ho. subst o.
  apply (H _ eq_refl 1 0); [lia|lia|vm_compute; discriminate|vm_compute; reflexivity
                           |vm_compute; reflexivity].
Qed.

(** C1 witness: the empty 4x4 board without edges is solved, and the
    amended statement applies to it. *)
Lemma solve_complete_when_prefilled_ok_witness :
  exists sol, solvePuzzle 4 (no_edges 4) (empty_board 4) = Some sol /\
  let b' := apply_placements (empty_board 4) sol in
  (forall r c, r < 4 -> c < 4 -> get b' r c <> CellState.EMPTY)
  /\ (forall i, i < 4 ->
        2 * count_row 4 b' i CellState.SUN = 4 /\ 2 * count_row 4 b' i CellState.MOON = 4
        /\ 2 * count_col 4 b' i CellState.SUN = 4 /\ 2 * count_col 4 b' i CellState.MOON = 4)
  /\ no_three_row 4 b' /\ no_three_col 4 b'
  /\ (forall r c, r + 1 < 4 -> c < 4 ->
        (vedge (no_edges 4) r c = EdgeState.EQUAL -> get b' r c = get b' (r + 1) c)
        /\ (vedge (no_edges 4) r c = EdgeState.OPPOSITE -> get b' r c <> get b' (r + 1) c)).
Proof.
  exists (match solvePuzzle 4 (no_edges 4) (empty_board 4) with Some s => s | None => [] end).
  split; [vm_compute; reflexivity|].
  apply solve_complete_when_prefilled_ok;
    [apply wf_empty_board|apply prefilled_ok_empty_board|vm_compute; reflexivity].
Defined.

(** C2 (code bug): isValidPlacement accepts MOON at (0,1) of the 4x4 board
    whose cell (0,0) holds SUN and whose edge [horizontal[0][0]] is EQUAL:
    checkEdgeConstraints only looks at the right-hand neighbour, never at the
    left one, so this EQUAL edge joining different symbols is not rejected. *)
Lemma isValidPlacement_misses_left_edge :
  get board_sun_00 0 0 = CellState.SUN
  /\ hedge edges_equal_00 0 0 = EdgeState.EQUAL
  /\ get board_sun_00 0 1 = CellState.EMPTY
  /\ isValidPlacement 4 edges_equal_00 board_sun_00 0 1 CellState.MOON = true.
Proof. vm_compute. repeat split. Qed.

(** C3: when solvePuzzle reports no solution, [this.board] is left exactly
    as it was before the call, and the solution array is empty again. *)
Theorem solve_restores_on_failure N e b :
  solvePuzzle N e b = None ->
  board (snd (solvePuzzle_run N e b)) = b /\ solution (snd (solvePuzzle_run N e b)) = [].
Proof.
  unfold solvePuzzle. destruct (solvePuzzle_run N e b) as [[|] st] eqn:E; [discriminate|].
  intros _. simpl. unfold solvePuzzle_run in E.
  apply dfs_restores in E; [|apply sortedEmptyCells_pending]. exact E.
Qed.

Lemma solve_restores_on_failure_witness :
  solvePuzzle 4 (no_edges 4) board_row_run4 = None /\
  board (snd (solvePuzzle_run 4 (no_edges 4) board_row_run4)) = board_row_run4 /\
  solution (snd (solvePuzzle_run 4 (no_edges 4) board_row_run4)) = [].
Proof.
  split; [vm_compute; reflexivity|].
  apply solve_restores_on_failure. vm_compute. reflexivity.
Defined.

(** C4: on success the placements visit the initially EMPTY cells in the
    heuristic order -- ascending number of EMPTY 4-neighbours on the input
    board, ties in row-major order -- each such cell exactly once and no
    other cell; and at every cell where SUN was committed, MOON had been
    tried first and failed (it was not a valid placement, or the search
    below it found no solution). *)
Theorem solve_heuristic_order N e b sol :
  solvePuzzle N e b = Some sol ->
  Sorted (heur_lt (adjKey N b)) (map fst sol)
  /\ NoDup (map fst sol)
  /\ (forall r c, In (r, c) (map fst sol) <-> r < N /\ c < N /\ get b r c = CellState.EMPTY)
  /\ (forall i r c, nth_error sol i = Some (r, c, CellState.SUN) ->
        let bi := apply_placements b (firstn i sol) in
        isValidPlacement N e bi r c CellState.MOON = false
        \/ fst (dfs N e (map fst (skipn (S i) sol)) (mkSt (set bi r c CellState.MOON) [] 0))
           = false).
Proof.
  intros Hs. assert (Hcells := solve_some_cells N e b sol Hs).
  destruct (solve_some N e b sol Hs) as [_ [_ [_ [_ [_ [_ Hmf]]]]]].
  rewrite Hcells. split; [|split; [|split]].
  - apply sort_by_sorted, emptyCells_row_major.
  - apply sortedEmptyCells_pending.
  - intros r c. apply in_sortedEmptyCells.
  - apply moon_first_nth; auto.
Qed.

Lemma solve_heuristic_order_witness :
  exists sol, solvePuzzle 4 edges_equal_00 board_sun_00 = Some sol /\
  Sorted (heur_lt (adjKey 4 board_sun_00)) (map fst sol)
  /\ NoDup (map fst sol)
  /\ (forall r c, In (r, c) (map fst sol) <->
        r < 4 /\ c < 4 /\ get board_sun_00 r c = CellState.EMPTY)
  /\ (forall i r c, nth_error sol i = Some (r, c, CellState.SUN) ->
        let bi := apply_placements board_sun_00 (firstn i sol) in
        isValidPlacement 4 edges_equal_00 bi r c CellState.MOON = false
        \/ fst (dfs 4 edges_equal_00 (map fst (skipn (S i) sol))
                  (mkSt (set bi r c CellState.MOON) [] 0)) = false).
Proof.
  exists (match solvePuzzle 4 edges_equal_00 board_sun_00 with Some s => s | None => [] end).
  split; [vm_compute; reflexivity|].
  apply solve_heuristic_order. vm_compute. reflexivity.
Defined.

(** C5: the three-in-a-row part of isValidPlacement rejects [s] at
    (row, col) exactly when one of the three windows through the cell, in
    its row or in its column and inside the board, already holds two copies
    of [s]: the two cells before, the two cells after, or one on each side.
    (The column half, checkThreeInRowVertical, is modelled from the spec.) *)
Theorem three_in_row_component_spec N b r c s :
  checkThreeInRowHorizontal N b r c s || checkThreeInRowVertical N b r c s = true <->
  (2 <= c /\ get b r (c - 1) = s /\ get b r (c - 2) = s)
  \/ (c + 3 <= N /\ get b r (c + 1) = s /\ get b r (c + 2) = s)
  \/ (0 < c /\ c + 1 < N /\ get b r (c - 1) = s /\ get b r (c + 1) = s)
  \/ (2 <= r /\ get b (r - 1) c = s /\ get b (r - 2) c = s)
  \/ (r + 3 <= N /\ get b (r + 1) c = s /\ get b (r + 2) c = s)
  \/ (0 < r /\ r + 1 < N /\ get b (r - 1) c = s /\ get b (r + 1) c = s).
Proof.
  rewrite orb_true_iff, checkThreeInRowHorizontal_spec, checkThreeInRowVertical_spec.
  tauto.
Qed.

(** C6: on success every pre-filled (non-EMPTY) cell keeps its symbol on
    [this.board] and receives no placement, and every EMPTY cell of the
    board appears exactly once in the placement list. *)
Theorem solve_conserves_cells N e b sol :
  solvePuzzle N e b = Some sol ->
  (forall r c, get b r c <> CellState.EMPTY ->
     get (board (snd (solvePuzzle_run N e b))) r c = get b r c /\ ~ In (r, c) (map fst sol))
  /\ (forall r c, r < N -> c < N -> get b r c = CellState.EMPTY ->
        count_occ coord_eq_dec (map fst sol) (r, c) = 1).
Proof.
  intros Hs. assert (Hcells := solve_some_cells N e b sol Hs).
  destruct (solve_some N e b sol Hs) as [_ [_ [_ [_ [Hb _]]]]].
  assert (Hpend : pending (map fst sol) b)
    by (rewrite Hcells; apply sortedEmptyCells_pending).
  split.
  - intros r c Hne.
    assert (Hnin : ~ In (r, c) (map fst sol)) by (intro Hin; apply Hpend in Hin; auto).
    split; auto. rewrite Hb. apply get_apply_notin; auto.
  - intros r c Hr Hc He. apply (NoDup_count_occ' coord_eq_dec); [apply Hpend|].
    rewrite Hcells, in_sortedEmptyCells. auto.
Qed.

Lemma solve_conserves_cells_witness :
  exists sol, solvePuzzle 4 edges_equal_00 board_sun_00 = Some sol /\
  (forall r c, get board_sun_00 r c <> CellState.EMPTY ->
     get (board (snd (solvePuzzle_run 4 edges_equal_00 board_sun_00))) r c
       = get board_sun_00 r c /\ ~ In (r, c) (map fst sol))
  /\ (forall r c, r < 4 -> c < 4 -> get board_sun_00 r c = CellState.EMPTY ->
        count_occ coord_eq_dec (map fst sol) (r, c) = 1).
Proof.
  exists (match solvePuzzle 4 edges_equal_00 board_sun_00 with Some s => s | None => [] end).
  split; [vm_compute; reflexivity|].
  apply solve_conserves_cells. vm_compute. reflexivity.
Defined.

(** C7 counterexample: solvePuzzle checks nothing before the search. On a
    3x3 board (odd size) whose edge matrices are empty (dimensions not
    matching the board) it raises no error and returns a Solution. *)
Lemma solve_no_upfront_validation :
  solvePuzzle 3 (mkEdges [] []) board_full3 = Some [].
Proof. vm_compute. reflexivity. Qed.

(** C7 (amended): there is no validate and no InvalidBoardError; whatever
    its size and its edge matrices, a board without any EMPTY cell leaves
    nothing to search and solvePuzzle returns the empty placement list. *)
Theorem solve_full_board N e b :
  no_empty_cell N b = true -> solvePuzzle N e b = Some [].
Proof.
  intros Hfull.
  assert (He : emptyCells N b = []).
  { destruct (emptyCells N b) as [|[r c] l] eqn:E; auto.
    assert (Hin : In (r, c) (emptyCells N b)) by (rewrite E; left; auto).
    apply in_emptyCells in Hin as [Hr [Hc Hg]].
    exfalso. exact (no_empty_cell_spec N b Hfull r c Hr Hc Hg). }
  unfold solvePuzzle, solvePuzzle_run, sortedEmptyCells. rewrite He. reflexivity.
Qed.

Lemma solve_full_board_witness :
  no_empty_cell 3 board_full3 = true /\ solvePuzzle 3 (mkEdges [] []) board_full3 = Some [].
Proof.
  split; [vm_compute; reflexivity|].
  apply solve_full_board. vm_compute. reflexivity.
Defined.

(** C8 (code bug): on the 4x4 board whose only pre-filled cell is (0,0) =
    SUN and whose only edge is [horizontal[0][0]] = EQUAL, solvePuzzle does
    return a Solution, but that Solution assigns MOON, not SUN, to (0,1). *)
Lemma solve_equal_edge_assigns_moon :
  exists sol, solvePuzzle 4 edges_equal_00 board_sun_00 = Some sol
    /\ In (0, 1, CellState.MOON) sol /\ ~ In (0, 1, CellState.SUN) sol.
Proof.
  exists (match solvePuzzle 4 edges_equal_00 board_sun_00 with Some s => s | None => [] end).
  split; [vm_compute; reflexivity|]. split.
  - vm_compute. tauto.
  - vm_compute. intuition discriminate.
Qed.

(** C9 counterexample: the 6x6 board whose row 0 is pre-filled with
    E S S S E E (three SUN in a row) is not rejected: solvePuzzle returns
    a Solution. *)
Lemma solve_accepts_prefilled_run :
  exists sol, solvePuzzle 6 (no_edges 6) board_row_run = Some sol.
Proof.
  exists (match solvePuzzle 6 (no_edges 6) board_row_run with Some s => s | None => [] end).
  vm_compute. reflexivity.
Qed.

(** C9 (amended): pre-filled cells are never checked against each other, so
    a Solution may be returned for a board whose pre-filled cells already
    hold three SUN in a row; those cells keep their SUN and the resulting
    board then breaks the three-in-a-row rule. *)
Theorem solve_keeps_prefilled_run N e b r c sol :
  r < N -> c + 2 < N ->
  get b r c = CellState.SUN -> get b r (c + 1) = CellState.SUN ->
  get b r (c + 2) = CellState.SUN ->
  solvePuzzle N e b = Some sol ->
  let b' := apply_placements b sol in
  get b' r c = CellState.SUN /\ get b' r (c + 1) = CellState.SUN
  /\ get b' r (c + 2) = CellState.SUN /\ ~ no_three_row N b'.
Proof.
  intros Hr Hc H0 H1 H2 Hs b'.
  assert (Hpend : pending (map fst sol) b)
    by (rewrite (solve_some_cells N e b sol Hs); apply sortedEmptyCells_pending).
  assert (Hkeep : forall k, get b r k = CellState.SUN -> get b' r k = CellState.SUN).
  { intros k Hk. unfold b'. rewrite get_apply_notin; auto.
    intro Hin. apply Hpend in Hin. congruence. }
  assert (K0 := Hkeep c H0). assert (K1 := Hkeep (c + 1) H1). assert (K2 := Hkeep (c + 2) H2).
  split; [|split; [|split]]; auto.
  intro Hno. apply (Hno r c Hr Hc); congruence.
Qed.

Lemma solve_keeps_prefilled_run_witness :
  exists sol, solvePuzzle 6 (no_edges 6) board_row_run = Some sol /\
  let b' := apply_placements board_row_run sol in
  get b' 0 1 = CellState.SUN /\ get b' 0 2 = CellState.SUN
  /\ get b' 0 3 = CellState.SUN /\ ~ no_three_row 6 b'.
Proof.
  exists (match solvePuzzle 6 (no_edges 6) board_row_run with Some s => s | None => [] end).
  split; [vm_compute; reflexivity|].
  apply (solve_keeps_prefilled_run 6 (no_edges 6) board_row_run 0 1);
    [lia|lia|vm_compute; reflexivity|vm_compute; reflexivity|vm_compute; reflexivity
    |vm_compute; reflexivity].
Defined.

(** C10: solvePuzzle terminates on every board, and the number of [dfs]
    calls it makes is bounded: one frame per cell tries at most two
    symbols, so there are fewer than 2^(k+1) calls for k EMPTY cells; the
    result is either a Solution or no solution. *)
Theorem solve_terminates N e b :
  calls (snd (solvePuzzle_run N e b)) + 1 <= 2 ^ S (length (emptyCells N b))
  /\ (solvePuzzle N e b = None \/ exists sol, solvePuzzle N e b = Some sol).
Proof.
  split.
  - unfold solvePuzzle_run. assert (H := dfs_calls N e (sortedEmptyCells N b) (mkSt b [] 0)).
    simpl in H. unfold sortedEmptyCells in *.
    rewrite (Permutation_length (sort_by_perm _ _)) in H. exact H.
  - unfold solvePuzzle. destruct (solvePuzzle_run N e b) as [[|] st]; eauto.
Qed.

(** * Further properties of the code *)

(** ** The search is exhaustive, and its answer is the first one *)

Section Exhaustive.

Variable N : nat.
Variable e : Edges.

Lemma dfs_fails_no_valid cells :
  forall st st', pending cells (board st) -> dfs N e cells st = (false, st') ->
  forall syms, length syms = length cells ->
  Forall (fun s => s = CellState.SUN \/ s = CellState.MOON) syms ->
  ~ valid_seq N e (board st) (combine cells syms).
Proof.
  induction cells as [|[r c] rest IH]; intros st st' Hp H syms Hl Hf Hv; simpl in H.
  - discriminate.
  - destruct syms as [|s syms']; [discriminate|]. simpl in Hl, Hv.
    destruct Hv as [Hv1 Hv2]. inversion Hf as [|? ? Hs Hf']; subst.
    destruct (attempt N e (dfs N e rest) (tick st) r c CellState.MOON) as [[|] st1] eqn:E1;
      [discriminate|].
    assert (Hb1 : board st1 = board st).
    { apply attempt_restores with (rest := rest) in E1; [tauto| |exact Hp].
      intros; eapply dfs_restores; eauto. }
    destruct Hs as [-> | ->].
    + apply attempt_false in H as [[Hinv _]|[_ [st2 [H2 _]]]].
      * rewrite Hb1 in Hinv. congruence.
      * assert (Hp' : pending rest (board (place st1 r c CellState.SUN)))
          by (simpl; rewrite Hb1; apply pending_tail; auto).
        apply (IH _ _ Hp' H2 syms' ltac:(lia) Hf').
        simpl. rewrite Hb1. exact Hv2.
    + apply attempt_false in E1 as [[Hinv _]|[_ [st2 [H2 _]]]].
      * simpl in Hinv. congruence.
      * exact (IH (place (tick st) r c CellState.MOON) _ (pending_tail _ _ _ _ CellState.MOON Hp) H2 syms' ltac:(lia) Hf' Hv2).
Qed.

Lemma dfs_least cells :
  forall st st', pending cells (board st) -> dfs N e cells st = (true, st') ->
  exists syms0, length syms0 = length cells
    /\ solution st' = solution st ++ combine cells syms0
    /\ forall syms, length syms = length cells ->
         Forall (fun s => s = CellState.SUN \/ s = CellState.MOON) syms ->
         valid_seq N e (board st) (combine cells syms) -> lex_le syms0 syms.
Proof.
  induction cells as [|[r c] rest IH]; intros st st' Hp H; simpl in H.
  - inversion H; subst. exists []. simpl. rewrite app_nil_r. auto.
  - destruct (attempt N e (dfs N e rest) (tick st) r c CellState.MOON) as [[|] st1] eqn:E1.
    + inversion H; subst.
      apply attempt_true in E1 as [_ Hr].
      destruct (IH (place (tick st) r c CellState.MOON) _ (pending_tail _ _ _ _ CellState.MOON Hp) Hr) as [syms1 [Hl [Hsol Hle]]].
      exists (CellState.MOON :: syms1). simpl. split; [lia|]. split.
      * rewrite Hsol. simpl. now rewrite <- app_assoc.
      * intros [|s syms'] Hl' Hf Hv; [discriminate|].
        inversion Hf as [|? ? Hs Hf']; subst. simpl in Hv, Hl'.
        destruct Hs as [-> | ->]; [left; simpl; lia|].
        right. split; auto. apply Hle; auto. apply Hv.
    + assert (Hb1 : board st1 = board st /\ solution st1 = solution st).
      { apply attempt_restores with (rest := rest) in E1; auto.
        intros; eapply dfs_restores; eauto. }
      destruct Hb1 as [Hb1 Hs1].
      apply attempt_true in H as [_ Hr].
      assert (Hp' : pending rest (board (place st1 r c CellState.SUN)))
        by (simpl; rewrite Hb1; apply pending_tail; auto).
      destruct (IH _ _ Hp' Hr) as [syms1 [Hl [Hsol Hle]]].
      exists (CellState.SUN :: syms1). simpl. split; [lia|]. split.
      * rewrite Hsol. simpl. rewrite Hs1. now rewrite <- app_assoc.
      * intros [|s syms'] Hl' Hf Hv; [discriminate|].
        inversion Hf as [|? ? Hs Hf']; subst. simpl in Hv, Hl'.
        destruct Hv as [Hv1 Hv2].
        destruct Hs as [-> | ->].
        -- right. split; auto. apply Hle; auto. simpl. rewrite Hb1. exact Hv2.
        -- exfalso.
           apply attempt_false in E1 as [[Hinv _]|[_ [st2 [H2 _]]]].
           ++ simpl in Hinv. congruence.
           ++ exact (dfs_fails_no_valid rest (place (tick st) r c CellState.MOON) _ (pending_tail _ _ _ _ CellState.MOON Hp) H2
                       syms' ltac:(lia) Hf' Hv2).
Qed.

End Exhaustive.

Lemma map_snd_combine {A B} (l1 : list A) (l2 : list B) :
  length l1 = length l2 -> map snd (combine l1 l2) = l2.
Proof.
  revert l2; induction l1; intros [|y l2] H; simpl in *; try discriminate; auto.
  f_equal. apply IHl1. lia.
Qed.

(** ** isValidPlacement only gets stricter as cells fill *)

Section Monotone.

Variable N : nat.
Variable e : Edges.

Lemma count_upto_mono n f g :
  (forall j, j < n -> f j = true -> g j = true) -> count_upto n f <= count_upto n g.
Proof.
  induction n; intros H; simpl; auto.
  assert (IH := IHn ltac:(intros; apply H; auto; lia)).
  destruct (f n) eqn:Ef; [rewrite (H n ltac:(lia) Ef)|destruct (g n)]; lia.
Qed.

Lemma get_extends b b' r c s :
  s <> CellState.EMPTY -> extends b b' -> get b r c = s -> get b' r c = s.
Proof. intros Hs Hx Hg. rewrite Hx; congruence. Qed.

Lemma edge_violated_extends edge b b' r c s :
  extends b b' -> edge_violated edge (get b r c) s = true ->
  edge_violated edge (get b' r c) s = true.
Proof.
  intros Hx H. destruct (get b r c) eqn:Eg.
  - destruct edge, s; discriminate.
  - rewrite Hx by congruence. rewrite Eg. exact H.
  - rewrite Hx by congruence. rewrite Eg. exact H.
Qed.

Lemma checks_extends b b' r c s :
  s <> CellState.EMPTY -> extends b b' ->
  (checkThreeInRowHorizontal N b r c s = true -> checkThreeInRowHorizontal N b' r c s = true)
  /\ (checkThreeInRowVertical N b r c s = true -> checkThreeInRowVertical N b' r c s = true)
  /\ (checkRowColumnBalance N b r c s = true -> checkRowColumnBalance N b' r c s = true)
  /\ (checkEdgeConstraints N e b r c s = true -> checkEdgeConstraints N e b' r c s = true).
Proof.
  intros Hs Hx.
  assert (G : forall r' c', get b r' c' = s -> get b' r' c' = s)
    by (intros; eapply get_extends; eauto).
  split; [|split; [|split]].
  - rewrite !(checkThreeInRowHorizontal_spec N). intuition.
  - rewrite !(checkThreeInRowVertical_spec N). intuition.
  - unfold checkRowColumnBalance, count_row, count_col.
    assert (Mr : count_upto N (fun c0 => CellState.eqb (get b r c0) s)
                 <= count_upto N (fun c0 => CellState.eqb (get b' r c0) s)).
    { apply count_upto_mono. intros j _ Hj. apply CellState_eqb_spec in Hj.
      apply CellState_eqb_spec. auto. }
    assert (Mc : count_upto N (fun r0 => CellState.eqb (get b r0 c) s)
                 <= count_upto N (fun r0 => CellState.eqb (get b' r0 c) s)).
    { apply count_upto_mono. intros j _ Hj. apply CellState_eqb_spec in Hj.
      apply CellState_eqb_spec. auto. }
    rewrite !orb_true_iff, !Nat.ltb_lt. lia.
  - unfold checkEdgeConstraints, checkEdgeConstraintsVertical.
    rewrite !orb_true_iff.
    destruct (c + 1 <? N), (r + 1 <? N), (0 <? r); simpl;
      intuition (eauto using edge_violated_extends; try discriminate).
Qed.

End Monotone.

(** A step of a valid sequence was valid on the board of its time. *)
Lemma valid_seq_at N e b ps r c s :
  valid_seq N e b ps -> In (r, c, s) ps ->
  exists pre, isValidPlacement N e (apply_placements b pre) r c s = true
    /\ forall p, In p (map fst pre) -> In p (map fst ps).
Proof.
  revert b; induction ps as [|[[r' c'] s'] ps IH]; intros b Hv Hin; simpl in *; [tauto|].
  destruct Hv as [Hv1 Hv2]. destruct Hin as [Heq|Hin].
  - inversion Heq; subst. exists []. simpl. split; auto. tauto.
  - destruct (IH _ Hv2 Hin) as [pre [Hpre Hsub]].
    exists ((r', c', s') :: pre). simpl. split; auto.
    intros p [<-|Hp]; auto.
Qed.

(** Filling EMPTY cells extends the board. *)
Lemma apply_extends b ps :
  (forall r c, In (r, c) (map fst ps) -> get b r c = CellState.EMPTY) ->
  extends b (apply_placements b ps).
Proof.
  intros H r c Hne. apply get_apply_notin. intro Hin. apply Hne. auto.
Qed.

(** ** Extra properties of the search *)

(** solvePuzzle reports no solution exactly when no SUN/MOON assignment of
    the EMPTY cells, made in the heuristic order, passes isValidPlacement at
    every step: the backtracking search is exhaustive. *)
Theorem solve_none_iff_no_valid_assignment N e b :
  solvePuzzle N e b = None <->
  forall syms, length syms = length (sortedEmptyCells N b) ->
    Forall (fun s => s = CellState.SUN \/ s = CellState.MOON) syms ->
    ~ valid_seq N e b (combine (sortedEmptyCells N b) syms).
Proof.
  split.
  - unfold solvePuzzle. destruct (solvePuzzle_run N e b) as [[|] st] eqn:E; [discriminate|].
    intros _. unfold solvePuzzle_run in E.
    exact (dfs_fails_no_valid N e _ (mkSt b [] 0) st (sortedEmptyCells_pending N b) E).
  - intros H. destruct (solvePuzzle N e b) as [sol|] eqn:Hs; auto.
    destruct (solve_some N e b sol Hs) as [syms [Hl [Hf [Hsol [_ [Hv _]]]]]].
    exfalso. apply (H syms Hl Hf). rewrite <- Hsol. exact Hv.
Qed.

(** The Solution returned is the first valid assignment in the order the
    search tries them: among all SUN/MOON assignments of the EMPTY cells (in
    the heuristic order) that pass isValidPlacement at every step, its
    symbol sequence is the lexicographically least, MOON before SUN. *)
Theorem solve_lex_first N e b sol :
  solvePuzzle N e b = Some sol ->
  forall syms, length syms = length (sortedEmptyCells N b) ->
    Forall (fun s => s = CellState.SUN \/ s = CellState.MOON) syms ->
    valid_seq N e b (combine (sortedEmptyCells N b) syms) ->
    lex_le (map snd sol) syms.
Proof.
  unfold solvePuzzle. destruct (solvePuzzle_run N e b) as [[|] st] eqn:E; [|discriminate].
  intros H. inversion H; subst; clear H. unfold solvePuzzle_run in E.
  destruct (dfs_least N e _ (mkSt b [] 0) st (sortedEmptyCells_pending N b) E)
    as [syms0 [Hl [Hsol Hle]]].
  simpl in Hsol. rewrite Hsol, map_snd_combine by auto. exact Hle.
Qed.

Lemma solve_lex_first_witness :
  exists sol, solvePuzzle 4 edges_equal_00 board_sun_00 = Some sol /\
  forall syms, length syms = length (sortedEmptyCells 4 board_sun_00) ->
    Forall (fun s => s = CellState.SUN \/ s = CellState.MOON) syms ->
    valid_seq 4 edges_equal_00 board_sun_00 (combine (sortedEmptyCells 4 board_sun_00) syms) ->
    lex_le (map snd sol) syms.
Proof.
  exists (match solvePuzzle 4 edges_equal_00 board_sun_00 with Some s => s | None => [] end).
  split; [vm_compute; reflexivity|].
  apply solve_lex_first. vm_compute. reflexivity.
Defined.

(** isValidPlacement only gets stricter as cells are filled: a SUN or MOON
    accepted at a cell of a board is also accepted there on any board with
    fewer filled cells (the filled cells of which keep their symbols). *)
Theorem isValidPlacement_antitone N e b b' r c s :
  s <> CellState.EMPTY -> extends b b' ->
  isValidPlacement N e b' r c s = true -> isValidPlacement N e b r c s = true.
Proof.
  intros Hs Hx Hv. destruct (checks_extends N e b b' r c s Hs Hx) as [H1 [H2 [H3 H4]]].
  unfold isValidPlacement in *.
  destruct (checkThreeInRowHorizontal N b r c s) eqn:E1;
    [rewrite (H1 eq_refl) in Hv; discriminate|].
  destruct (checkThreeInRowVertical N b r c s) eqn:E2;
    [rewrite (H2 eq_refl) in Hv;
     destruct (checkThreeInRowHorizontal N b' r c s); discriminate|].
  destruct (checkRowColumnBalance N b r c s) eqn:E3;
    [rewrite (H3 eq_refl) in Hv;
     destruct (checkThreeInRowHorizontal N b' r c s), (checkThreeInRowVertical N b' r c s);
     discriminate|].
  destruct (checkEdgeConstraints N e b r c s) eqn:E4; auto.
  rewrite (H4 eq_refl) in Hv.
  destruct (checkThreeInRowHorizontal N b' r c s), (checkThreeInRowVertical N b' r c s),
    (checkRowColumnBalance N b' r c s); discriminate.
Qed.

Lemma isValidPlacement_antitone_witness :
  CellState.MOON <> CellState.EMPTY /\ extends (empty_board 4) board_sun_00 /\
  isValidPlacement 4 edges_equal_00 board_sun_00 1 1 CellState.MOON = true /\
  isValidPlacement 4 edges_equal_00 (empty_board 4) 1 1 CellState.MOON = true.
Proof.
  assert (Hx : extends (empty_board 4) board_sun_00).
  { intros r c H. exfalso. apply H. apply get_empty_board. }
  assert (Hv : isValidPlacement 4 edges_equal_00 board_sun_00 1 1 CellState.MOON = true)
    by (vm_compute; reflexivity).
  split; [discriminate|]. split; [exact Hx|]. split; [exact Hv|].
  apply (isValidPlacement_antitone 4 edges_equal_00 (empty_board 4) board_sun_00 1 1
           CellState.MOON); [discriminate|exact Hx|exact Hv].
Defined.

(** If some EMPTY cell of the input board accepts neither MOON nor SUN,
    solvePuzzle reports no solution. *)
Theorem solve_none_on_dead_cell N e b r c :
  In (r, c) (emptyCells N b) ->
  isValidPlacement N e b r c CellState.MOON = false ->
  isValidPlacement N e b r c CellState.SUN = false ->
  solvePuzzle N e b = None.
Proof.
  intros Hin HM HS. destruct (solvePuzzle N e b) as [sol|] eqn:Hs; auto. exfalso.
  destruct (solve_some N e b sol Hs) as [_ [_ [_ [_ [_ [Hv _]]]]]].
  assert (Hcells := solve_some_cells N e b sol Hs).
  assert (Hp : pending (map fst sol) b) by (rewrite Hcells; apply sortedEmptyCells_pending).
  assert (Hin' : In (r, c) (map fst sol)).
  { rewrite Hcells. apply in_sortedEmptyCells, (in_emptyCells N). exact Hin. }
  apply in_map_iff in Hin' as [[[r1 c1] s] [Heq Hin']]. simpl in Heq. inversion Heq; subst.
  destruct (valid_seq_at N e b sol r c s Hv Hin') as [pre [Hpre Hsub]].
  assert (Hsym := proj1 (Forall_forall _ _) (solve_some_symbols N e b sol Hs) _ Hin').
  simpl in Hsym.
  assert (Hx : extends b (apply_placements b pre))
    by (apply apply_extends; intros r' c' H; apply Hp, Hsub, H).
  apply isValidPlacement_antitone with (b := b) in Hpre;
    [|destruct Hsym as [-> | ->]; discriminate|exact Hx].
  destruct Hsym as [-> | ->]; congruence.
Qed.

Lemma solve_none_on_dead_cell_witness :
  In (0, 2) (emptyCells 6 board_dead_cell) /\
  isValidPlacement 6 (no_edges 6) board_dead_cell 0 2 CellState.MOON = false /\
  isValidPlacement 6 (no_edges 6) board_dead_cell 0 2 CellState.SUN = false /\
  solvePuzzle 6 (no_edges 6) board_dead_cell = None.
Proof.
  assert (H1 : In (0, 2) (emptyCells 6 board_dead_cell)) by (vm_compute; tauto).
  assert (H2 : isValidPlacement 6 (no_edges 6) board_dead_cell 0 2 CellState.MOON = false)
    by (vm_compute; reflexivity).
  assert (H3 : isValidPlacement 6 (no_edges 6) board_dead_cell 0 2 CellState.SUN = false)
    by (vm_compute; reflexivity).
  split; [exact H1|]. split; [exact H2|]. split; [exact H3|].
  exact (solve_none_on_dead_cell 6 (no_edges 6) board_dead_cell 0 2 H1 H2 H3).
Defined.

(** A successful solvePuzzle leaves [this.board] solved (it is not
    restored): it is the input board with the placements applied, and each
    placed cell holds the symbol of its placement. *)
Theorem solve_success_board N e b sol :
  wf N b -> solvePuzzle N e b = Some sol ->
  board (snd (solvePuzzle_run N e b)) = apply_placements b sol
  /\ forall r c s, In (r, c, s) sol -> get (board (snd (solvePuzzle_run N e b))) r c = s.
Proof.
  intros Hwf Hs.
  destruct (solve_some N e b sol Hs) as [syms [_ [_ [_ [Hb _]]]]].
  assert (Hcells := solve_some_cells N e b sol Hs).
  split; auto. intros r c s Hin. rewrite Hb.
  apply (get_apply_in N); auto.
  - intros r' c' H. rewrite Hcells, in_sortedEmptyCells in H. tauto.
  - rewrite Hcells. apply sortedEmptyCells_pending.
Qed.

Lemma solve_success_board_witness :
  exists sol, solvePuzzle 4 edges_equal_00 board_sun_00 = Some sol /\
  board (snd (solvePuzzle_run 4 edges_equal_00 board_sun_00)) = apply_placements board_sun_00 sol
  /\ forall r c s, In (r, c, s) sol ->
       get (board (snd (solvePuzzle_run 4 edges_equal_00 board_sun_00))) r c = s.
Proof.
  exists (match solvePuzzle 4 edges_equal_00 board_sun_00 with Some s => s | None => [] end).
  split; [vm_compute; reflexivity|].
  apply solve_success_board.
  - split; [reflexivity|]. intros r Hr.
    do 4 (destruct r as [|r]; [reflexivity|]). lia.
  - vm_compute. reflexivity.
Defined.

(** ** Parsing the page *)

Section Parse.

Variable N : nat.

(** [dims_ok] as a proposition. *)
Definition dims (st : GameState) : Prop :=
  wf N (gs_board st)
  /\ length (horizontal (gs_edges st)) = N
  /\ (forall r, r < N -> length (nth r (horizontal (gs_edges st)) []) = N - 1)
  /\ length (vertical (gs_edges st)) = N - 1
  /\ (forall r, r < N - 1 -> length (nth r (vertical (gs_edges st)) []) = N).

Lemma forallb_nth {A} (f : A -> bool) (l : list A) d i :
  forallb f l = true -> i < length l -> f (nth i l d) = true.
Proof. intros H Hi. rewrite forallb_forall in H. apply H, nth_In, Hi. Qed.

Lemma forallb_nth_inv {A} (f : A -> bool) (l : list A) d :
  (forall i, i < length l -> f (nth i l d) = true) -> forallb f l = true.
Proof.
  intros H. apply forallb_forall. intros x Hx.
  destruct (In_nth l x d Hx) as [i [Hi <-]]. auto.
Qed.

Lemma dims_ok_spec st : dims_ok N st = true <-> dims st.
Proof.
  unfold dims_ok, dims, wf. rewrite !andb_true_iff, !Nat.eqb_eq.
  split.
  - intros [[[[[Hb Hbr] Hh] Hhr] Hv] Hvr]. repeat split; auto.
    + intros r Hr. apply Nat.eqb_eq. apply (forallb_nth _ _ [] r Hbr). lia.
    + intros r Hr. apply Nat.eqb_eq. apply (forallb_nth _ _ [] r Hhr). lia.
    + intros r Hr. apply Nat.eqb_eq. apply (forallb_nth _ _ [] r Hvr). lia.
  - intros [[Hb Hbr] [Hh [Hhr [Hv Hvr]]]]. repeat split; auto;
      apply (forallb_nth_inv _ _ []); intros i Hi; apply Nat.eqb_eq.
    + apply Hbr. lia.
    + apply Hhr. lia.
    + apply Hvr. lia.
Qed.

Lemma set_checked_some {A} (m : list (list A)) i j x :
  i < length m -> j < length (nth i m []) ->
  set_checked m i j x = Some (update_nth i (update_nth j x (nth i m [])) m).
Proof.
  intros Hi Hj. unfold set_checked.
  rewrite (nth_error_nth' m [] Hi). destruct (nth_error (nth i m []) j) eqn:E; auto.
  apply nth_error_None in E. lia.
Qed.

Lemma set_checked_inv {A} (m m' : list (list A)) i j x :
  set_checked m i j x = Some m' ->
  i < length m /\ j < length (nth i m []) /\ m' = update_nth i (update_nth j x (nth i m [])) m.
Proof.
  unfold set_checked. destruct (nth_error m i) as [row|] eqn:Ei; [|discriminate].
  destruct (nth_error row j) eqn:Ej; [|discriminate]. intros H; inversion H; subst.
  assert (Hi : i < length m) by (apply nth_error_Some; congruence).
  rewrite (nth_error_nth' m [] Hi) in Ei. inversion Ei; subst.
  repeat split; auto. apply nth_error_Some; congruence.
Qed.

(** Reading an array of arrays after [m[i][j] = x]. *)
Lemma nth2_update {A} (m : list (list A)) i j x d r c :
  i < length m -> j < length (nth i m []) ->
  nth c (nth r (update_nth i (update_nth j x (nth i m [])) m) []) d
  = if (r =? i) && (c =? j) then x else nth c (nth r m []) d.
Proof.
  intros Hi Hj. destruct (Nat.eqb_spec r i) as [->|Hr]; simpl.
  - rewrite nth_update_nth_same by auto.
    destruct (Nat.eqb_spec c j) as [->|Hc].
    + now apply nth_update_nth_same.
    + now apply nth_update_nth_other.
  - now rewrite nth_update_nth_other by auto.
Qed.

Lemma length_nth_update {A} (m : list (list A)) i j x r :
  length (nth r (update_nth i (update_nth j x (nth i m [])) m) []) = length (nth r m []).
Proof.
  destruct (Nat.lt_ge_cases i (length m)) as [Hi|Hi].
  - destruct (Nat.eq_dec r i) as [->|Hr].
    + rewrite nth_update_nth_same by auto. apply length_update_nth.
    + now rewrite nth_update_nth_other by auto.
  - now rewrite update_nth_oob by auto.
Qed.

(** The cell of index [r * N + c] is the one at [(r, c)]. *)
Lemma index_div r c : c < N -> (r * N + c) / N = r /\ (r * N + c) mod N = c.
Proof.
  intros Hc. split.
  - symmetry. apply (Nat.div_unique _ N r c); lia.
  - symmetry. apply (Nat.mod_unique _ N r c); lia.
Qed.

Lemma index_eq k r c :
  N <> 0 -> c < N -> (k / N =? r) && (k mod N =? c) = (k =? r * N + c).
Proof.
  intros HN Hc. destruct (Nat.eqb_spec k (r * N + c)) as [->|Hk].
  - destruct (index_div r c Hc) as [-> ->]. now rewrite !Nat.eqb_refl.
  - destruct (Nat.eqb_spec (k / N) r), (Nat.eqb_spec (k mod N) c); auto.
    exfalso. apply Hk. rewrite (Nat.div_mod_eq k N). subst. lia.
Qed.

Definition grid {A} (g : list (list A)) : Prop :=
  length g = N /\ forall r, r < N -> length (nth r g []) = N.

Lemma fill_cells_ok g k cells :
  N <> 0 -> grid g -> k + length cells <= N * N ->
  exists g', fill_cells N g k cells = Some g' /\ grid g'
    /\ forall r c, r < N -> c < N ->
         nth c (nth r g' []) None
         = if (k <=? r * N + c) && (r * N + c <? k + length cells)
           then nth_error cells (r * N + c - k)
           else nth c (nth r g []) None.
Proof.
  intros HN. revert g k.
  induction cells as [|cell rest IH]; intros g k [Hg Hgr] Hk; simpl in *.
  - exists g. split; auto. split; [split; auto|].
    intros r c Hr Hc.
    destruct (Nat.leb_spec k (r * N + c)), (Nat.ltb_spec (r * N + c) (k + 0)); simpl; auto.
    lia.
  - assert (Hkr : k / N < N) by (apply Nat.Div0.div_lt_upper_bound; lia).
    assert (Hkc : k mod N < N) by (apply Nat.mod_upper_bound; auto).
    unfold place_cell. apply Nat.eqb_neq in HN as HN'. rewrite HN'.
    rewrite set_checked_some by (rewrite ?Hg, ?Hgr; auto).
    set (g1 := update_nth (k / N) (update_nth (k mod N) (Some cell) (nth (k / N) g [])) g).
    assert (Hg1 : grid g1).
    { unfold g1. split; [now rewrite length_update_nth|].
      intros r Hr. rewrite length_nth_update. auto. }
    destruct (IH g1 (S k) Hg1 ltac:(lia)) as [g' [Hf [Hg' Hv]]].
    exists g'. split; auto. split; auto.
    intros r c Hr Hc. rewrite Hv by auto. unfold g1.
    rewrite nth2_update by (rewrite ?Hg, ?Hgr; auto).
    rewrite (Nat.eqb_sym r), (Nat.eqb_sym c), index_eq by auto.
    destruct (Nat.eqb_spec k (r * N + c)) as [Hk'|Hk'].
    + subst k. rewrite Nat.leb_refl, Nat.sub_diag.
      destruct (Nat.leb_spec (S (r * N + c)) (r * N + c)); [lia|].
      destruct (Nat.ltb_spec (r * N + c) (r * N + c + S (length rest))); [|lia].
      reflexivity.
    + destruct (Nat.leb_spec (S k) (r * N + c)), (Nat.ltb_spec (r * N + c) (S k + length rest)),
        (Nat.leb_spec k (r * N + c)), (Nat.ltb_spec (r * N + c) (k + S (length rest)));
        simpl; auto; try lia.
      replace (r * N + c - k) with (S (r * N + c - S k)) by lia. reflexivity.
Qed.

Lemma fill_cells_bound g k cells g' :
  length g = N -> k <= N * N -> fill_cells N g k cells = Some g' -> k + length cells <= N * N.
Proof.
  revert g k; induction cells as [|cell rest IH]; intros g k Hg Hk H; simpl in *; [lia|].
  unfold place_cell in H. destruct (Nat.eqb_spec N 0) as [HN|HN]; [discriminate|].
  destruct (set_checked g (k / N) (k mod N) (Some cell)) as [g1|] eqn:E; [|discriminate].
  apply set_checked_inv in E as [Hi [_ ->]].
  assert (k < N * N).
  { rewrite (Nat.div_mod_eq k N). assert (k mod N < N) by (apply Nat.mod_upper_bound; auto).
    nia. }
  apply IH in H; [lia|now rewrite length_update_nth|lia].
Qed.

Lemma in_coords r c : In (r, c) (coords N) <-> r < N /\ c < N.
Proof.
  unfold coords. rewrite in_flat_map. split.
  - intros [r' [Hr Hin]]. apply in_map_iff in Hin as [c' [Heq Hc]]. inversion Heq; subst.
    apply in_seq in Hr, Hc. lia.
  - intros [Hr Hc]. exists r. split; [apply in_seq; lia|].
    apply in_map_iff. exists c. split; auto. apply in_seq; lia.
Qed.

Lemma coords_NoDup : NoDup (coords N).
Proof.
  assert (Hf : forall l : list nat, filter (fun _ => true) l = l)
    by (induction l; simpl; congruence).
  assert (Hc : coords N = flat_map (fun row => map (fun col => (row, col))
                                     (filter (fun _ => true) (seq 0 N))) (seq 0 N))
    by (unfold coords; now rewrite Hf).
  rewrite Hc. apply (NoDup_StronglySorted lexlt); [apply lexlt_irrefl|].
  exact (rows_row_major N (fun _ _ => true) N 0).
Qed.

Lemma foldM_in {A S} (f : S -> A -> option S) l s s' x :
  foldM f l s = Some s' -> In x l -> exists s0, f s0 x <> None.
Proof.
  revert s; induction l as [|y l IH]; intros s H Hin; simpl in *; [tauto|].
  destruct (f s y) as [s1|] eqn:E; [|discriminate].
  destruct Hin as [<-|Hin]; [exists s; congruence|]. eauto.
Qed.

(** The same cell, or any other. *)
Lemma if_same {A} (f : nat -> nat -> A) r c r' c' :
  (if (r' =? r) && (c' =? c) then f r c else f r' c') = f r' c'.
Proof. destruct (Nat.eqb_spec r' r), (Nat.eqb_spec c' c); subst; auto. Qed.

Lemma contents_step st r c cell :
  dims st -> r < N -> c < N ->
  exists st1, (match parse_contents cell with
               | Some v => set_contents st r c v
               | None => Some st
               end) = Some st1
    /\ gs_edges st1 = gs_edges st /\ dims st1
    /\ forall r' c', get (gs_board st1) r' c'
                     = if (r' =? r) && (c' =? c) then cell_value cell (get (gs_board st) r c)
                       else get (gs_board st) r' c'.
Proof.
  intros Hd Hr Hc. unfold cell_value.
  destruct (parse_contents cell) as [v|].
  - destruct Hd as [[Hb Hbr] Hrest].
    unfold set_contents. rewrite set_checked_some by (rewrite ?Hb, ?Hbr; auto).
    eexists. split; [reflexivity|]. simpl. split; auto. split.
    + split; auto. exact (wf_set N (gs_board st) r c v (conj Hb Hbr)).
    + intros r' c'. exact (get_set_wf N (gs_board st) r c r' c' v (conj Hb Hbr) Hr Hc).
  - exists st. split; [reflexivity|]. split; [reflexivity|]. split; [exact Hd|].
    intros r' c'. symmetry. apply (if_same (get (gs_board st))).
Qed.

Lemma hedge_step el st r c :
  dims st -> r < N -> c < N ->
  exists st2, parseEdge el (c + 1 <? N) (set_hedge st r c) st = Some st2
    /\ gs_board st2 = gs_board st /\ vertical (gs_edges st2) = vertical (gs_edges st)
    /\ dims st2
    /\ forall r' c', hedge (gs_edges st2) r' c'
                     = if (r' =? r) && (c' =? c)
                       then edge_value el (c + 1 <? N) (hedge (gs_edges st) r c)
                       else hedge (gs_edges st) r' c'.
Proof.
  intros Hd Hr Hc.
  assert (Hsame : exists st2, Some st = Some st2 /\ gs_board st2 = gs_board st
            /\ vertical (gs_edges st2) = vertical (gs_edges st) /\ dims st2
            /\ forall r' c', hedge (gs_edges st2) r' c'
                  = if (r' =? r) && (c' =? c) then hedge (gs_edges st) r c
                    else hedge (gs_edges st) r' c').
  { exists st. split; [reflexivity|]. split; [reflexivity|]. split; [reflexivity|].
    split; [exact Hd|]. intros r' c'. symmetry. apply (if_same (hedge (gs_edges st))). }
  unfold parseEdge, edge_value. destruct el as [el|]; [|exact Hsame].
  destruct (Nat.ltb_spec (c + 1) N) as [Hc1|Hc1]; [|exact Hsame].
  destruct (edge_svg el) as [label|]; [|exact Hsame].
  destruct Hd as [Hb [Hh [Hhr [Hv Hvr]]]].
  unfold set_hedge. rewrite set_checked_some by (rewrite ?Hh, ?Hhr; lia).
  eexists. split; [reflexivity|]. simpl. split; auto. split; auto. split.
  - split; auto. simpl. split; [now rewrite length_update_nth|]. split; auto.
    intros r' Hr'. rewrite length_nth_update. auto.
  - intros r' c'. unfold hedge. simpl. apply nth2_update; rewrite ?Hh, ?Hhr; lia.
Qed.

Lemma vedge_step el st r c :
  dims st -> r < N -> c < N ->
  exists st2, parseEdge el (r + 1 <? N) (set_vedge st r c) st = Some st2
    /\ gs_board st2 = gs_board st /\ horizontal (gs_edges st2) = horizontal (gs_edges st)
    /\ dims st2
    /\ forall r' c', vedge (gs_edges st2) r' c'
                     = if (r' =? r) && (c' =? c)
                       then edge_value el (r + 1 <? N) (vedge (gs_edges st) r c)
                       else vedge (gs_edges st) r' c'.
Proof.
  intros Hd Hr Hc.
  assert (Hsame : exists st2, Some st = Some st2 /\ gs_board st2 = gs_board st
            /\ horizontal (gs_edges st2) = horizontal (gs_edges st) /\ dims st2
            /\ forall r' c', vedge (gs_edges st2) r' c'
                  = if (r' =? r) && (c' =? c) then vedge (gs_edges st) r c
                    else vedge (gs_edges st) r' c').
  { exists st. split; [reflexivity|]. split; [reflexivity|]. split; [reflexivity|].
    split; [exact Hd|]. intros r' c'. symmetry. apply (if_same (vedge (gs_edges st))). }
  unfold parseEdge, edge_value. destruct el as [el|]; [|exact Hsame].
  destruct (Nat.ltb_spec (r + 1) N) as [Hr1|Hr1]; [|exact Hsame].
  destruct (edge_svg el) as [label|]; [|exact Hsame].
  destruct Hd as [Hb [Hh [Hhr [Hv Hvr]]]].
  unfold set_vedge. rewrite set_checked_some by (rewrite ?Hv, ?Hvr; lia).
  eexists. split; [reflexivity|]. simpl. split; auto. split; auto. split.
  - split; auto. simpl. split; auto. split; auto. split; [now rewrite length_update_nth|].
    intros r' Hr'. rewrite length_nth_update. auto.
  - intros r' c'. unfold vedge. simpl. apply nth2_update; rewrite ?Hv, ?Hvr; lia.
Qed.

(** One iteration of the nested loop writes only position [(r, c)]. *)
Lemma parseCellAt_ok g st r c cell :
  dims st -> r < N -> c < N -> nth c (nth r g []) None = Some cell ->
  exists st', parseCellAt N g st r c = Some st' /\ dims st'
    /\ (forall r' c', get (gs_board st') r' c'
          = if (r' =? r) && (c' =? c) then cell_value cell (get (gs_board st) r c)
            else get (gs_board st) r' c')
    /\ (forall r' c', hedge (gs_edges st') r' c'
          = if (r' =? r) && (c' =? c)
            then edge_value (right_edge cell) (c + 1 <? N) (hedge (gs_edges st) r c)
            else hedge (gs_edges st) r' c')
    /\ (forall r' c', vedge (gs_edges st') r' c'
          = if (r' =? r) && (c' =? c)
            then edge_value (down_edge cell) (r + 1 <? N) (vedge (gs_edges st) r c)
            else vedge (gs_edges st) r' c').
Proof.
  intros Hd Hr Hc Hg. unfold parseCellAt. rewrite Hg.
  destruct (contents_step st r c cell Hd Hr Hc) as [st1 [E1 [He1 [Hd1 Hb1]]]].
  rewrite E1. unfold parseConstraintEdges.
  destruct (hedge_step (right_edge cell) st1 r c Hd1 Hr Hc) as [st2 [E2 [Hb2 [Hv2 [Hd2 Hh2]]]]].
  rewrite E2.
  destruct (vedge_step (down_edge cell) st2 r c Hd2 Hr Hc) as [st3 [E3 [Hb3 [Hh3 [Hd3 Hv3]]]]].
  rewrite E3. exists st3. split; auto. split; auto. split; [|split].
  - intros r' c'. rewrite Hb3, Hb2. apply Hb1.
  - intros r' c'. unfold hedge at 1. rewrite Hh3. fold (hedge (gs_edges st2) r' c').
    rewrite Hh2, He1. reflexivity.
  - intros r' c'. rewrite Hv3. unfold vedge. rewrite Hv2, He1. reflexivity.
Qed.

(** The whole loop over distinct in-range positions [l]. *)
Lemma parse_loop_ok g (cellAt : nat -> nat -> DomCell) l :
  (forall r c, r < N -> c < N -> nth c (nth r g []) None = Some (cellAt r c)) ->
  NoDup l -> (forall r c, In (r, c) l -> r < N /\ c < N) ->
  forall st, dims st ->
  exists st', foldM (fun st '(row, col) => parseCellAt N g st row col) l st = Some st'
    /\ dims st'
    /\ forall r c,
         get (gs_board st') r c
           = (if in_dec coord_eq_dec (r, c) l
              then cell_value (cellAt r c) (get (gs_board st) r c) else get (gs_board st) r c)
         /\ hedge (gs_edges st') r c
           = (if in_dec coord_eq_dec (r, c) l
              then edge_value (right_edge (cellAt r c)) (c + 1 <? N) (hedge (gs_edges st) r c)
              else hedge (gs_edges st) r c)
         /\ vedge (gs_edges st') r c
           = (if in_dec coord_eq_dec (r, c) l
              then edge_value (down_edge (cellAt r c)) (r + 1 <? N) (vedge (gs_edges st) r c)
              else vedge (gs_edges st) r c).
Proof.
  intros Hg. induction l as [|[r0 c0] l IH]; intros Hnd Hin st Hd; cbn [foldM].
  - exists st. split; [reflexivity|]. split; [exact Hd|]. intros r c.
    destruct (in_dec coord_eq_dec (r, c) []) as [[]|_]; auto.
  - inversion Hnd as [|? ? Hnin Hnd']; subst.
    destruct (Hin r0 c0 (or_introl eq_refl)) as [Hr0 Hc0].
    destruct (parseCellAt_ok g st r0 c0 (cellAt r0 c0) Hd Hr0 Hc0 (Hg r0 c0 Hr0 Hc0))
      as [st1 [E1 [Hd1 [Hb1 [Hh1 Hv1]]]]].
    rewrite E1.
    destruct (IH Hnd' (fun r c H => Hin r c (or_intror H)) st1 Hd1) as [st' [E' [Hd' Hv']]].
    exists st'. split; auto. split; auto. intros r c.
    destruct (Hv' r c) as [B [H V]]. rewrite B, H, V, Hb1, Hh1, Hv1.
    destruct (coord_eq_dec (r0, c0) (r, c)) as [Heq|Hne].
    + inversion Heq; subst. rewrite !Nat.eqb_refl. cbn [andb].
      destruct (in_dec coord_eq_dec (r, c) l) as [Hl|Hl]; [contradiction|].
      destruct (in_dec coord_eq_dec (r, c) ((r, c) :: l)) as [_|Hl'];
        [auto|exfalso; apply Hl'; left; auto].
    + assert (Hb : (r =? r0) && (c =? c0) = false).
      { destruct (Nat.eqb_spec r r0), (Nat.eqb_spec c c0); subst; auto. congruence. }
      rewrite !Hb.
      destruct (in_dec coord_eq_dec (r, c) l) as [Hl|Hl];
        destruct (in_dec coord_eq_dec (r, c) ((r0, c0) :: l)) as [Hl'|Hl'];
        simpl in Hl'; try tauto; rewrite ?Hb; auto.
Qed.

End Parse.

Lemma grid_blank N : grid N (repeat (repeat (@None DomCell) N) N).
Proof.
  split; [apply repeat_length|]. intros r Hr. rewrite nth_repeat_in by auto.
  apply repeat_length.
Qed.

Lemma parseBoardState_ok N cells st :
  length cells = N * N -> dims N st ->
  exists st', parseBoardState N cells st = Some st' /\ dims N st' /\
  forall r c cell, r < N -> c < N -> nth_error cells (r * N + c) = Some cell ->
    get (gs_board st') r c = cell_value cell (get (gs_board st) r c)
    /\ hedge (gs_edges st') r c = edge_value (right_edge cell) (c + 1 <? N) (hedge (gs_edges st) r c)
    /\ vedge (gs_edges st') r c = edge_value (down_edge cell) (r + 1 <? N) (vedge (gs_edges st) r c).
Proof.
  intros Hlen Hd. unfold parseBoardState.
  destruct cells as [|d0 rest].
  - simpl in Hlen. assert (N = 0) by nia. subst N. simpl.
    exists st. split; auto. split; auto. intros r c cell Hr. lia.
  - assert (HN : N <> 0) by (intro; subst; simpl in Hlen; discriminate).
    destruct (fill_cells_ok N _ 0 (d0 :: rest) HN (grid_blank N) ltac:(lia))
      as [g [Hf [Hg Hv]]].
    rewrite Hf.
    set (cellAt := fun r c => nth (r * N + c) (d0 :: rest) d0).
    assert (Hidx : forall r c, r < N -> c < N -> r * N + c < N * N) by (intros; nia).
    assert (Hcell : forall r c, r < N -> c < N -> nth c (nth r g []) None = Some (cellAt r c)).
    { intros r c Hr Hc. rewrite Hv by auto. rewrite Hlen.
      destruct (Nat.ltb_spec (r * N + c) (0 + N * N)); [|specialize (Hidx r c Hr Hc); lia].
      simpl. rewrite Nat.sub_0_r. apply nth_error_nth'. rewrite Hlen. auto. }
    destruct (parse_loop_ok N g cellAt (coords N) Hcell (coords_NoDup N)
                (fun r c H => proj1 (in_coords N r c) H) st Hd) as [st' [E [Hd' Hall]]].
    exists st'. split; auto. split; auto.
    intros r c cell Hr Hc Hnth.
    assert (Hce : cell = cellAt r c).
    { unfold cellAt. rewrite (nth_error_nth' (d0 :: rest) d0) in Hnth
        by (rewrite Hlen; auto). congruence. }
    subst cell. destruct (Hall r c) as [B [H V]].
    destruct (in_dec coord_eq_dec (r, c) (coords N)) as [_|Hn];
      [|exfalso; apply Hn, in_coords; auto].
    auto.
Qed.

(** ** Extra properties of the page side *)

(** parseBoardState, run on [BOARD_SIZE * BOARD_SIZE] cells and a state
    shaped like [gameState], succeeds and keeps those shapes; the cell of
    index [r * BOARD_SIZE + c] lands at [(r, c)]: an empty marker makes it
    EMPTY, otherwise a Moon makes it MOON, otherwise a Sun makes it SUN, and
    with none of them the cell keeps the value it had in the state. *)
Theorem parseBoardState_cells N cells st :
  length cells = N * N -> dims_ok N st = true ->
  exists st', parseBoardState N cells st = Some st' /\ dims_ok N st' = true /\
  forall r c cell, r < N -> c < N -> nth_error cells (r * N + c) = Some cell ->
    get (gs_board st') r c = cell_value cell (get (gs_board st) r c).
Proof.
  intros Hlen Hd. apply dims_ok_spec in Hd.
  destruct (parseBoardState_ok N cells st Hlen Hd) as [st' [E [Hd' Hall]]].
  exists st'. split; auto. split; [apply dims_ok_spec; auto|].
  intros r c cell Hr Hc Hn. apply (Hall r c cell Hr Hc Hn).
Qed.

Lemma parseBoardState_cells_witness :
  length example_cells = 2 * 2 /\ dims_ok 2 example_state = true /\
  exists st', parseBoardState 2 example_cells example_state = Some st'
    /\ dims_ok 2 st' = true /\
    forall r c cell, r < 2 -> c < 2 -> nth_error example_cells (r * 2 + c) = Some cell ->
      get (gs_board st') r c = cell_value cell (get (gs_board example_state) r c).
Proof.
  split; [reflexivity|]. split; [vm_compute; reflexivity|].
  apply parseBoardState_cells; vm_compute; reflexivity.
Defined.

(** parseBoardState, in the same setting, sets the edge to the right of
    [(r, c)] from that cell's right-edge element and the edge below it from
    its down-edge element, when the neighbour exists and the element holds
    an svg: OPPOSITE when its aria-label is Cross, EQUAL otherwise; every
    other edge keeps its value. *)
Theorem parseBoardState_edges N cells st :
  length cells = N * N -> dims_ok N st = true ->
  exists st', parseBoardState N cells st = Some st' /\
  forall r c cell, r < N -> c < N -> nth_error cells (r * N + c) = Some cell ->
    hedge (gs_edges st') r c = edge_value (right_edge cell) (c + 1 <? N) (hedge (gs_edges st) r c)
    /\ vedge (gs_edges st') r c
       = edge_value (down_edge cell) (r + 1 <? N) (vedge (gs_edges st) r c).
Proof.
  intros Hlen Hd. apply dims_ok_spec in Hd.
  destruct (parseBoardState_ok N cells st Hlen Hd) as [st' [E [Hd' Hall]]].
  exists st'. split; auto.
  intros r c cell Hr Hc Hn. apply (Hall r c cell Hr Hc Hn).
Qed.

Lemma parseBoardState_edges_witness :
  length example_cells = 2 * 2 /\ dims_ok 2 example_state = true /\
  exists st', parseBoardState 2 example_cells example_state = Some st' /\
  forall r c cell, r < 2 -> c < 2 -> nth_error example_cells (r * 2 + c) = Some cell ->
    hedge (gs_edges st') r c
      = edge_value (right_edge cell) (c + 1 <? 2) (hedge (gs_edges example_state) r c)
    /\ vedge (gs_edges st') r c
      = edge_value (down_edge cell) (r + 1 <? 2) (vedge (gs_edges example_state) r c).
Proof.
  split; [reflexivity|]. split; [vm_compute; reflexivity|].
  apply parseBoardState_edges; vm_compute; reflexivity.
Defined.

(** parseBoardState throws unless the page has exactly
    [BOARD_SIZE * BOARD_SIZE] cells: with more, [cells2D[row]] is undefined
    for a row past the last; with fewer, some [cells2D[row][col]] stays
    [null] and [cell.querySelector] throws. *)
Theorem parseBoardState_count N cells st :
  parseBoardState N cells st <> None -> length cells = N * N.
Proof.
  unfold parseBoardState. intros H.
  destruct (fill_cells N (repeat (repeat None N) N) 0 cells) as [g|] eqn:Ef; [|congruence].
  destruct (Nat.eq_dec N 0) as [->|HN].
  - destruct cells; simpl in *; auto. discriminate.
  - assert (Hb := fill_cells_bound N _ 0 cells g (repeat_length _ _) ltac:(lia) Ef).
    destruct (Nat.eq_dec (length cells) (N * N)) as [|Hne]; auto. exfalso.
    set (k := length cells) in *.
    assert (Hk : k < N * N) by lia.
    assert (Hr : k / N < N) by (apply Nat.Div0.div_lt_upper_bound; lia).
    assert (Hc : k mod N < N) by (apply Nat.mod_upper_bound; auto).
    destruct (fill_cells_ok N _ 0 cells HN (grid_blank N) ltac:(lia)) as [g' [Hf' [_ Hv]]].
    rewrite Ef in Hf'. inversion Hf'; subst g'.
    assert (Hkk : k / N * N + k mod N = k)
      by (rewrite (Nat.div_mod_eq k N) at 3; lia).
    assert (Hnull : nth (k mod N) (nth (k / N) g []) None = None).
    { rewrite Hv by auto. rewrite Hkk.
      destruct (Nat.ltb_spec k (0 + length cells)); [unfold k in *; lia|].
      rewrite andb_false_r. rewrite !nth_repeat_in by auto. reflexivity. }
    destruct (foldM (fun st '(row, col) => parseCellAt N g st row col) (coords N) st)
      as [st'|] eqn:E; [|contradiction].
    destruct (foldM_in _ _ _ _ (k / N, k mod N) E (proj2 (in_coords N _ _) (conj Hr Hc)))
      as [s0 Hs0].
    apply Hs0. unfold parseCellAt. rewrite Hnull. reflexivity.
Qed.

Lemma parseBoardState_count_witness :
  parseBoardState 2 example_cells example_state <> None /\ length example_cells = 2 * 2.
Proof.
  assert (H : parseBoardState 2 example_cells example_state <> None)
    by (vm_compute; discriminate).
  split; [exact H|].
  exact (parseBoardState_count 2 example_cells example_state H).
Defined.

(** ** Entering a solution on the page *)

Section Input.

Variable N : nat.

Lemma get_checked_in b r c :
  wf N b -> r < N -> c < N -> get_checked b r c = Some (get b r c).
Proof.
  intros [Hl Hrow] Hr Hc. unfold get_checked, get.
  rewrite (nth_error_nth' b []) by lia.
  apply nth_error_nth'. rewrite Hrow; auto.
Qed.

Lemma filter_new_none base sol :
  filter_new base sol = None <->
  exists r c s, In (r, c, s) sol /\ get_checked base r c = None.
Proof.
  induction sol as [|[[r c] s] sol IH]; simpl.
  - split; [discriminate|]. intros (r & c & s & [] & _).
  - destruct (get_checked base r c) as [v|] eqn:E.
    + destruct (filter_new base sol) as [l|] eqn:E2.
      * split; [discriminate|]. intros (r' & c' & s' & [Heq|Hin] & Hg).
        -- inversion Heq; subst. congruence.
        -- assert (H : exists r c s, In (r, c, s) sol /\ get_checked base r c = None)
             by eauto.
           apply IH in H. discriminate.
      * split; [intros _|reflexivity].
        destruct (proj1 IH eq_refl) as (r' & c' & s' & Hin & Hg). eauto 6.
    + split; [intros _; exists r, c, s; auto|reflexivity].
Qed.

Lemma filter_new_in base sol l p :
  filter_new base sol = Some l -> In p l ->
  In p sol /\ get_checked base (fst (fst p)) (snd (fst p)) = Some CellState.EMPTY.
Proof.
  revert l; induction sol as [|[[r c] s] sol IH]; simpl; intros l H Hin.
  - inversion H; subst. destruct Hin.
  - destruct (get_checked base r c) as [v|] eqn:E; [|discriminate].
    destruct (filter_new base sol) as [l'|] eqn:E2; [|discriminate].
    inversion H; subst; clear H.
    destruct (CellState.eqb v CellState.EMPTY) eqn:Ev.
    + apply CellState_eqb_spec in Ev; subst v.
      destruct Hin as [<-|Hin]; [simpl; auto|].
      destruct (IH l' eq_refl Hin); auto.
    + destruct (IH l' eq_refl Hin); auto.
Qed.

Lemma filter_new_all base sol :
  (forall r c s, In (r, c, s) sol -> get_checked base r c = Some CellState.EMPTY) ->
  filter_new base sol = Some sol.
Proof.
  induction sol as [|[[r c] s] sol IH]; simpl; intros H; auto.
  rewrite (H r c s (or_introl eq_refl)), IH by eauto. reflexivity.
Qed.

Lemma insert_le_perm x l : Permutation (insert_le x l) (x :: l).
Proof.
  induction l as [|y l IH]; simpl; auto.
  destruct (placement_le x y); auto.
  rewrite IH. apply perm_swap.
Qed.

Lemma sort_le_perm l : Permutation (sort_le l) l.
Proof.
  induction l as [|x l IH]; simpl; auto.
  rewrite insert_le_perm. now apply perm_skip.
Qed.

Definition ple (a b : Placement) : Prop := placement_le a b = true.

Lemma ple_trans a b c : ple a b -> ple b c -> ple a c.
Proof.
  destruct a as [[ra ca] sa], b as [[rb cb] sb], c as [[rc cc] sc]; unfold ple; simpl.
  destruct (Nat.eqb_spec ra rb), (Nat.eqb_spec rb rc), (Nat.eqb_spec ra rc); simpl;
    rewrite ?Nat.ltb_lt, ?Nat.leb_le; lia.
Qed.

Lemma ple_total a b : placement_le a b = false -> ple b a.
Proof.
  destruct a as [[ra ca] sa], b as [[rb cb] sb]; unfold ple; simpl.
  destruct (Nat.eqb_spec ra rb), (Nat.eqb_spec rb ra); simpl;
    rewrite ?Nat.ltb_lt, ?Nat.leb_le, ?Nat.ltb_ge, ?Nat.leb_gt; lia.
Qed.

Lemma insert_le_hd x y l :
  HdRel ple y l -> ple y x -> HdRel ple y (insert_le x l).
Proof.
  destruct l as [|z l]; simpl; intros H1 H2; auto.
  destruct (placement_le x z); auto. inversion H1; auto.
Qed.

Lemma insert_le_sorted x l : Sorted ple l -> Sorted ple (insert_le x l).
Proof.
  induction l as [|y l IH]; intros Hs; simpl; auto.
  inversion Hs; subst.
  destruct (placement_le x y) eqn:E.
  - constructor; auto.
  - constructor; auto. apply insert_le_hd; auto. apply ple_total; auto.
Qed.

Lemma sort_le_sorted l : StronglySorted ple (sort_le l).
Proof.
  apply Sorted_StronglySorted; [intros a b c; apply ple_trans|].
  induction l as [|x l IH]; simpl; auto. apply insert_le_sorted; auto.
Qed.

Lemma ple_lexlt a b : ple a b -> fst a <> fst b -> lexlt (fst a) (fst b).
Proof.
  destruct a as [[ra ca] sa], b as [[rb cb] sb]; unfold ple, lexlt; simpl.
  destruct (Nat.eqb_spec ra rb); simpl; rewrite ?Nat.ltb_lt, ?Nat.leb_le;
    intros H Hne; [subst; right; split; auto; assert (ca <> cb) by congruence; lia|lia].
Qed.

Lemma sorted_cells l :
  StronglySorted ple l -> NoDup (map fst l) -> StronglySorted lexlt (map fst l).
Proof.
  induction l as [|x l IH]; intros Hs Hnd; simpl; constructor; inversion Hs; subst;
    inversion Hnd; subst; auto.
  apply Forall_forall. intros y Hy. apply in_map_iff in Hy as [p [<- Hp]].
  apply ple_lexlt.
  - eapply Forall_forall in H2; eauto.
  - intro Heq. apply H3. rewrite Heq. apply in_map; auto.
Qed.

Lemma lexlt_trans p q r : lexlt p q -> lexlt q r -> lexlt p r.
Proof. unfold lexlt. lia. Qed.

(** Two row-major sorted arrangements of the same cells are the same. *)
Lemma lexlt_sorted_unique l1 l2 :
  StronglySorted lexlt l1 -> StronglySorted lexlt l2 -> Permutation l1 l2 -> l1 = l2.
Proof.
  revert l2; induction l1 as [|x l1 IH]; intros l2 H1 H2 Hp.
  - symmetry. apply Permutation_nil; auto.
  - destruct l2 as [|y l2]; [apply Permutation_length in Hp; discriminate|].
    inversion H1; subst. inversion H2; subst.
    assert (Hx : In x (y :: l2)) by (eapply Permutation_in; eauto; left; auto).
    destruct Hx as [<-|Hx].
    + f_equal. apply IH; auto. eapply Permutation_cons_inv; eauto.
    + exfalso. assert (Hyx : lexlt y x) by (eapply Forall_forall in H6; eauto).
      assert (Hy : In y (x :: l1))
        by (eapply Permutation_in; [symmetry; eauto|left; auto]).
      destruct Hy as [->|Hy]; [eapply lexlt_irrefl; eauto|].
      assert (Hxy : lexlt x y) by (eapply Forall_forall in H4; eauto).
      eapply lexlt_irrefl. eapply lexlt_trans; eauto.
Qed.

Lemma flat_map_fst {B} (f : Placement -> list B) (g : nat * nat -> list B) l :
  (forall p, In p l -> f p = g (fst p)) -> flat_map f l = flat_map g (map fst l).
Proof.
  induction l as [|p l IH]; intros H; simpl; auto.
  rewrite H by (left; auto). f_equal. apply IH. intros; apply H; right; auto.
Qed.

Lemma in_singleClick k i t : In (i, t) (singleClick k) -> i = k.
Proof. unfold singleClick. simpl. intuition congruence. Qed.

Lemma in_symbolClicks k s i t :
  In (i, t) (symbolClicks k s) -> i = k /\ (s = CellState.SUN \/ s = CellState.MOON).
Proof.
  unfold symbolClicks, doubleClick. destruct s; simpl CellState.eqb; cbv iota.
  - intros [].
  - intros H. split; auto. eapply in_singleClick; eauto.
  - intros H. split; auto. apply in_app_or in H as [H|H]; eapply in_singleClick; eauto.
Qed.

End Input.

(** inputSolution throws (the [baseGameState.board[row][col]] lookup is a
    TypeError) exactly when some placement of the solution lies outside the
    base board. *)
Theorem inputSolution_none_iff N base lookup sol :
  inputSolution N base lookup sol = None <->
  exists r c s, In (r, c, s) sol /\ get_checked base r c = None.
Proof.
  unfold inputSolution. rewrite <- filter_new_none.
  destruct (filter_new base sol); split; congruence.
Qed.

(** Every event inputSolution dispatches is for a placement of the
    solution whose cell is EMPTY in the base board and holds SUN or MOON,
    on the element [#lotka-cell-(row * BOARD_SIZE + col)], which exists and
    is not locked: pre-filled cells, locked cells and missing elements are
    never clicked. *)
Theorem inputSolution_events_only_new N base lookup sol evs i t :
  inputSolution N base lookup sol = Some evs -> In (i, t) evs ->
  exists r c s cell, In (r, c, s) sol /\ get_checked base r c = Some CellState.EMPTY
    /\ (s = CellState.SUN \/ s = CellState.MOON) /\ i = r * N + c
    /\ lookup i = Some cell /\ is_locked cell = false.
Proof.
  unfold inputSolution. intros H Hin.
  destruct (filter_new base sol) as [l|] eqn:E; [|discriminate].
  inversion H; subst evs; clear H.
  apply in_flat_map in Hin as [[[r c] s] [Hp Hin]].
  apply (Permutation_in _ (sort_le_perm l)) in Hp.
  destruct (filter_new_in base sol l _ E Hp) as [Hsol Hg]. simpl in Hg.
  unfold clicksFor in Hin.
  destruct (lookup (r * N + c)) as [cell|] eqn:Hl; [|destruct Hin].
  destruct (is_locked cell) eqn:Hlk; simpl in Hin; [destruct Hin|].
  apply in_symbolClicks in Hin as [-> Hs].
  exists r, c, s, cell. repeat split; auto.
Qed.

Lemma inputSolution_events_only_new_witness :
  inputSolution 4 board_sun_00 (blank_page 4) example_solution = Some example_events
  /\ In (1, mousedown) example_events
  /\ exists r c s cell, In (r, c, s) example_solution
    /\ get_checked board_sun_00 r c = Some CellState.EMPTY
    /\ (s = CellState.SUN \/ s = CellState.MOON) /\ 1 = r * 4 + c
    /\ blank_page 4 1 = Some cell /\ is_locked cell = false.
Proof.
  assert (H1 : inputSolution 4 board_sun_00 (blank_page 4) example_solution
               = Some example_events) by (vm_compute; reflexivity).
  assert (H2 : In (1, mousedown) example_events) by (vm_compute; left; reflexivity).
  split; [exact H1|]. split; [exact H2|].
  exact (inputSolution_events_only_new 4 board_sun_00 (blank_page 4) example_solution
           example_events 1 mousedown H1 H2).
Defined.

(** solvePuzzle then inputSolution: on a well-shaped board whose page has
    every cell present and unlocked, the solution found is entered by
    clicking each cell that was EMPTY, in row-major order, once when the
    solved board holds SUN there and twice when it holds MOON. *)
Theorem solve_then_input N e b lookup sol :
  wf N b -> solvePuzzle N e b = Some sol -> all_unlocked (N * N) lookup = true ->
  inputSolution N b lookup sol =
  Some (flat_map (fun '(r, c) => symbolClicks (r * N + c) (get (apply_placements b sol) r c))
          (emptyCells N b)).
Proof.
  intros Hwf Hs Hu.
  assert (Hcells := solve_some_cells N e b sol Hs).
  assert (Hrange : forall r c, In (r, c) (map fst sol) ->
            r < N /\ c < N /\ get b r c = CellState.EMPTY)
    by (intros r c H; rewrite Hcells, in_sortedEmptyCells in H; auto).
  assert (Hnd : NoDup (map fst sol))
    by (rewrite Hcells; apply sortedEmptyCells_pending).
  assert (Hin : forall r c s, In (r, c, s) sol -> In (r, c) (map fst sol))
    by (intros r c s H; apply (in_map fst) in H; exact H).
  unfold inputSolution.
  rewrite filter_new_all.
  2:{ intros r c s H. destruct (Hrange r c (Hin r c s H)) as [Hr [Hc Hg]].
      rewrite (get_checked_in N) by auto. congruence. }
  assert (Hperm : Permutation (map fst (sort_le sol)) (emptyCells N b)).
  { rewrite (Permutation_map fst (sort_le_perm sol)), Hcells.
    apply sort_by_perm. }
  assert (Hmap : map fst (sort_le sol) = emptyCells N b).
  { apply lexlt_sorted_unique; auto; [|apply emptyCells_row_major].
    apply sorted_cells; [apply sort_le_sorted|].
    eapply Permutation_NoDup; [symmetry; apply Permutation_map, sort_le_perm|exact Hnd]. }
  rewrite <- Hmap. f_equal. apply flat_map_fst.
  intros [[r c] s] Hp. apply (Permutation_in _ (sort_le_perm sol)) in Hp.
  destruct (Hrange r c (Hin r c s Hp)) as [Hr [Hc _]].
  unfold clicksFor. simpl fst.
  assert (Hi : In (r * N + c) (seq 0 (N * N))) by (apply in_seq; nia).
  unfold all_unlocked in Hu. rewrite forallb_forall in Hu.
  specialize (Hu _ Hi).
  destruct (lookup (r * N + c)) as [cell|]; [|discriminate].
  rewrite Hu. cbv iota beta. f_equal.
  symmetry. apply (get_apply_in N); auto.
  intros r' c' H. destruct (Hrange r' c' H) as [? [? _]]; auto.
Qed.

Lemma solve_then_input_witness :
  wf 4 board_sun_00
  /\ solvePuzzle 4 edges_equal_00 board_sun_00 = Some example_solution
  /\ all_unlocked (4 * 4) (blank_page 4) = true
  /\ inputSolution 4 board_sun_00 (blank_page 4) example_solution
     = Some (flat_map (fun '(r, c) => symbolClicks (r * 4 + c)
               (get (apply_placements board_sun_00 example_solution) r c))
               (emptyCells 4 board_sun_00)).
Proof.
  assert (H1 : wf 4 board_sun_00).
  { split; [reflexivity|]. intros r Hr.
    do 4 (destruct r as [|r]; [reflexivity|]). lia. }
  assert (H2 : solvePuzzle 4 edges_equal_00 board_sun_00 = Some example_solution)
    by (vm_compute; reflexivity).
  assert (H3 : all_unlocked (4 * 4) (blank_page 4) = true) by (vm_compute; reflexivity).
  split; [exact H1|]. split; [exact H2|]. split; [exact H3|].
  exact (solve_then_input 4 edges_equal_00 board_sun_00 (blank_page 4) example_solution
           H1 H2 H3).
Defined.
